(** * The evolutionary-algorithms notebook, embedded in Rocq

    Source: [src/introduction/evolutionary_algorithms.ipynb].

    The notebook works on Python objects: an [Individual] holds a reference
    to a numpy array of genes and a fitness, [evaluate] writes the fitness
    in place, [mutate] copies the gene array and flips entries of the copy,
    and every random choice comes from numpy's process-wide generator.  The
    embedding therefore threads one state through every call: a store of
    objects indexed by their identity, and the generator.  A call either
    returns a value and a new state, or raises.

    Numbers: genes are numpy integers (0 or 1 when they come from
    [np.random.randint(0, 2, ...)]), modelled as [Z]; fitness values are
    Python numbers, modelled as an integer or the sentinel [-inf] that
    [Individual.__init__] stores; a mutation rate and a draw of
    [np.random.rand()] are rationals (the rounding of float division and
    NaN are outside the model). *)

From stdpp Require Import gmap list.
From Stdlib Require Import QArith.

Local Open Scope Z_scope.

(** ** Data model *)

(** Object identities. *)
Abbreviation loc := positive.

(** A fitness: [-np.inf] or a number. *)
Inductive Fitness :=
  | NegInf
  | Fin (z : Z).

Global Instance Fitness_eq_dec : EqDecision Fitness.
Proof. solve_decision. Defined.

(** [a <= b] on fitness values. *)
Definition fit_leb (a b : Fitness) : bool :=
  match a, b with
  | NegInf, _ => true
  | Fin _, NegInf => false
  | Fin x, Fin y => x <=? y
  end.

(** Python's [a >= b] and [a > b]. *)
Definition fit_geb (a b : Fitness) : bool := fit_leb b a.
Definition fit_gtb (a b : Fitness) : bool := negb (fit_leb a b).

Definition fit_le (a b : Fitness) : Prop := fit_leb a b = true.
Definition fit_lt (a b : Fitness) : Prop := fit_leb b a = false.

(** The objects of the store: a numpy array, or an [Individual] with its
    two attributes ([genes] is a reference to an array). *)
Inductive obj :=
  | ndarray (items : list Z)
  | OInd (genes_ref : loc) (fitness_val : Fitness).

(** What an objective function reads when it is handed an individual. *)
Record individual := { genes : list Z; fitness : Fitness }.

Definition objective_fn := individual → Fitness.

(** numpy's generator: an unbounded stream of raw words and the number of
    words already consumed.  Each primitive draw consumes one word. *)
Record Rng := mkRng { tape : nat → N; pos : nat }.

Record state := mkState { heap : gmap loc obj; rng : Rng }.

Inductive exn :=
  | ValueError          (* numpy: negative dimensions are not allowed *)
  | IndexError          (* index out of range *)
  | ZeroDivisionError
  | AttributeError.     (* the reference is not an object of the expected class *)

Inductive outcome (A : Type) :=
  | Ok (a : A) (s : state)
  | Raise (e : exn).
Arguments Ok {A} a s.
Arguments Raise {A} e.

(** ** The state-and-exception monad *)

Definition M (A : Type) : Type := state → outcome A.

Global Instance M_ret : MRet M := λ A a s, Ok a s.
Global Instance M_bind : MBind M := λ A B f m s,
  match m s with
  | Ok a s' => f a s'
  | Raise e => Raise e
  end.

Definition raise {A} (e : exn) : M A := λ _, Raise e.

(** [for x in xs: acc = body(x, acc)] *)
Fixpoint for_each {A S : Type} (xs : list A) (body : A → S → M S) (acc : S) : M S :=
  match xs with
  | [] => mret acc
  | x :: rest => acc' ← body x acc; for_each rest body acc'
  end.

(** *** Store primitives *)

Definition alloc (o : obj) : M loc := λ s,
  let l := fresh (dom (heap s)) in
  Ok l {| heap := <[l := o]> (heap s); rng := rng s |}.

(** [ind.genes] *)
Definition get_genes (ind : loc) : M loc := λ s,
  match heap s !! ind with
  | Some (OInd g _) => Ok g s
  | _ => Raise AttributeError
  end.

(** [ind.fitness] *)
Definition get_fitness (ind : loc) : M Fitness := λ s,
  match heap s !! ind with
  | Some (OInd _ f) => Ok f s
  | _ => Raise AttributeError
  end.

(** [ind.genes = g] *)
Definition set_genes (ind g : loc) : M unit := λ s,
  match heap s !! ind with
  | Some (OInd _ f) => Ok () {| heap := <[ind := OInd g f]> (heap s); rng := rng s |}
  | _ => Raise AttributeError
  end.

(** [ind.fitness = f] *)
Definition set_fitness (ind : loc) (f : Fitness) : M unit := λ s,
  match heap s !! ind with
  | Some (OInd g _) => Ok () {| heap := <[ind := OInd g f]> (heap s); rng := rng s |}
  | _ => Raise AttributeError
  end.

(** The contents of the array [a]. *)
Definition read_array (a : loc) : M (list Z) := λ s,
  match heap s !! a with
  | Some (ndarray xs) => Ok xs s
  | _ => Raise AttributeError
  end.

(** [a[i]] *)
Definition array_get (a : loc) (i : nat) : M Z :=
  xs ← read_array a;
  match xs !! i with
  | Some x => mret x
  | None => raise IndexError
  end.

(** [a[i] = x] *)
Definition array_set (a : loc) (i : nat) (x : Z) : M unit := λ s,
  match heap s !! a with
  | Some (ndarray xs) =>
      if decide (i < length xs)%nat
      then Ok () {| heap := <[a := ndarray (<[i := x]> xs)]> (heap s); rng := rng s |}
      else Raise IndexError
  | _ => Raise AttributeError
  end.

(** The individual behind a reference, as an objective function sees it. *)
Definition snapshot (ind : loc) : M individual :=
  g ← get_genes ind;
  xs ← read_array g;
  f ← get_fitness ind;
  mret {| genes := xs; fitness := f |}.

(** *** Generator primitives *)

Definition next_word : M N := λ s,
  Ok (tape (rng s) (pos (rng s)))
     {| heap := heap s; rng := {| tape := tape (rng s); pos := S (pos (rng s)) |} |}.

(** [np.random.randint(0, 2, (n,))]: [n] integers, each 0 or 1. *)
Fixpoint randint01 (n : nat) : M (list Z) :=
  match n with
  | O => mret []
  | S k => w ← next_word; rest ← randint01 k; mret (Z.of_N (w mod 2) :: rest)
  end.

(** [np.random.rand()]: a 53-bit fraction in [0, 1). *)
Definition rand_resolution : positive := 9007199254740992.

Definition rand : M Q :=
  w ← next_word;
  mret (Z.of_N (w mod Npos rand_resolution) # rand_resolution).

(** [x < y] on rationals. *)
Definition Qltb (x y : Q) : bool := negb (Qle_bool y x).

(** ** The notebook's definitions *)

(** [not x] on a numpy integer, stored back into an integer array. *)
Definition py_not (x : Z) : Z := if decide (x = 0) then 1 else 0.

(** [np.zeros(n)] *)
Definition np_zeros (n : Z) : M (list Fitness) :=
  if decide (n < 0) then raise ValueError
  else mret (replicate (Z.to_nat n) (Fin 0)).

(** [class Individual: def __init__(self, n)] *)
Definition Individual (n : Z) : M loc :=
  if decide (n < 0) then raise ValueError
  else
    bits ← randint01 (Z.to_nat n);
    g ← alloc (ndarray bits);
    alloc (OInd g NegInf).

(** [def onemax(i): return np.sum(i.genes)] *)
Definition onemax (i : individual) : Fitness := Fin (foldr Z.add 0 (genes i)).

(** [def evaluate(ind, objective): ind.fitness = objective(ind)].  The body
    has no [return], so the call yields Python's [None]. *)
Definition evaluate (ind : loc) (objective : objective_fn) : M (option Fitness) :=
  v ← snapshot ind;
  set_fitness ind (objective v);;
  mret None.

(** [def leading_ones(ind)]: [f = 0], then the loop over
    [range(len(ind.genes))] which sets [f = i] and breaks at the first
    index with [not ind.genes[i]]; [return f]. *)
Fixpoint leading_ones_loop (gs : list Z) (idxs : list nat) (f : Z) : Z :=
  match idxs with
  | [] => f
  | i :: rest =>
      match gs !! i with
      | Some x => if decide (x = 0) then Z.of_nat i else leading_ones_loop gs rest f
      | None => f
      end
  end.

Definition leading_ones (ind : individual) : Fitness :=
  Fin (leading_ones_loop (genes ind) (seq 0 (length (genes ind))) 0).

(** The default of [mutate]'s second parameter, [1.0/len(ind.genes)]: Python
    evaluates a default once, when the [def] statement runs, in the scope of
    the [def]; [ind] is then the notebook's global [ind], not the parameter. *)
Definition mutate_default (global_ind : loc) : M Q :=
  g ← get_genes global_ind;
  xs ← read_array g;
  if decide (length xs = 0%nat) then raise ZeroDivisionError
  else mret (1 # Pos.of_nat (length xs)).

Section Notebook.

(** The value bound to [mutate]'s default when its [def] statement ran. *)
Variable default_rate : Q.

(** One iteration of [for i in range(len(new_genes))] in [mutate]. *)
Definition mutate_step (ind new_genes : loc) (mutation_rate : Q) (i : nat) (_ : unit) : M unit :=
  u ← rand;
  if Qltb u mutation_rate then
    g ← get_genes ind;
    x ← array_get g i;
    array_set new_genes i (py_not x)
  else mret ().

(** [def mutate(ind, mutation_rate=1.0/len(ind.genes))]; [None] stands for
    a call that leaves the rate out. *)
Definition mutate (ind : loc) (mutation_rate : option Q) : M loc :=
  let rate := default default_rate mutation_rate in
  g ← get_genes ind;
  xs ← read_array g;
  new_genes ← alloc (ndarray xs);
  n ← (ys ← read_array new_genes; mret (length ys));
  for_each (seq 0 n) (mutate_step ind new_genes rate) ();;
  m ← (g' ← get_genes ind; ys ← read_array g'; mret (length ys));
  child ← Individual (Z.of_nat m);
  set_genes child new_genes;;
  mret child.

(** The body of the loop of [one_plus_one]; the loop state is the pair of
    the local variables [parent] and [fits]. *)
Definition one_plus_one_step (objective : objective_fn) (i : nat)
    (st : loc * list Fitness) : M (loc * list Fitness) :=
  let '(parent, fits) := st in
  child ← mutate parent None;
  evaluate child objective;;
  cf ← get_fitness child;
  pf ← get_fitness parent;
  let parent := if fit_geb cf pf then child else parent in
  f ← get_fitness parent;
  mret (parent, <[i := f]> fits).

(** [def one_plus_one(ind_length, num_generations, objective)] *)
Definition one_plus_one (ind_length num_generations : Z) (objective : objective_fn)
    : M (list Fitness) :=
  fits ← np_zeros num_generations;
  parent ← Individual ind_length;
  evaluate parent objective;;
  st ← for_each (seq 0 (length fits)) (one_plus_one_step objective) (parent, fits);
  mret st.2.

(** The body of [for j in range(1, lambda)]; the loop state is the pair of
    the local variables [population] and [best]. *)
Definition offspring_step (expert : loc) (objective : objective_fn) (j : nat)
    (st : list loc * nat) : M (list loc * nat) :=
  let '(population, best) := st in
  child ← mutate expert None;
  let population := population ++ [child] in
  match population !! j, population !! best with
  | Some pj, Some pb =>
      evaluate pj objective;;
      fj ← get_fitness pj;
      fb ← get_fitness pb;
      mret (population, if fit_gtb fj fb then j else best)
  | _, _ => raise IndexError
  end.

(** The body of the outer loop of [one_plus_lambda]. *)
Definition one_plus_lambda_step (objective : objective_fn) (lambda : Z) (i : nat)
    (st : loc * list Fitness) : M (loc * list Fitness) :=
  let '(expert, fits) := st in
  pb ← for_each (seq 1 (Z.to_nat (lambda - 1))) (offspring_step expert objective) ([expert], 0%nat);
  let '(population, best) := pb in
  match population !! best with
  | Some b =>
      fb ← get_fitness b;
      fe ← get_fitness expert;
      let expert := if fit_geb fb fe then b else expert in
      f ← get_fitness expert;
      mret (expert, <[i := f]> fits)
  | None => raise IndexError
  end.

(** [def one_plus_lambda(ind_length, num_generations, objective, lambda)] *)
Definition one_plus_lambda (ind_length num_generations : Z) (objective : objective_fn)
    (lambda : Z) : M (list Fitness) :=
  fits ← np_zeros num_generations;
  expert ← Individual ind_length;
  evaluate expert objective;;
  st ← for_each (seq 0 (length fits)) (one_plus_lambda_step objective lambda) (expert, fits);
  mret st.2.

End Notebook.

(** The cells of the notebook that run before [def mutate] and touch the
    state: [ind = Individual(10)] (cell 7), [ind.fitness = onemax(ind)]
    (cell 11), [evaluate(ind, onemax)] (cell 14), [n = 20],
    [parent = Individual(n)] and [evaluate(parent, onemax)] (cells 19 and
    20), then the [def] statement itself (cell 22), which evaluates the
    default.  The result is the pair of the global [parent] and the value
    bound to the default. *)
Definition notebook_until_mutate : M (loc * Q) :=
  ind ← Individual 10;
  v ← snapshot ind;
  set_fitness ind (onemax v);;
  evaluate ind onemax;;
  parent ← Individual 20;
  evaluate parent onemax;;
  rate ← mutate_default ind;
  mret (parent, rate).

(** ** The vocabulary of the statements *)

(** The generator after [k] more words have been consumed. *)
Definition advance (r : Rng) (k : nat) : Rng := mkRng (tape r) (pos r + k).

(** The [k]-th upcoming draw, read as [randint(0, 2)] and as [rand()]. *)
Definition draw_bit (r : Rng) (k : nat) : Z := Z.of_N (tape r (pos r + k) mod 2).
Definition draw_unit (r : Rng) (k : nat) : Q :=
  Z.of_N (tape r (pos r + k) mod Npos rand_resolution) # rand_resolution.

(** The next [n] draws of [randint(0, 2)]. *)
Definition drawn_bits (r : Rng) (n : nat) : list Z := draw_bit r <$> seq 0 n.

(** The genes [mutate] computes from the genes [xs], the rate and the
    upcoming draws of [rand()]. *)
Definition mutated (rate : Q) (r : Rng) (xs : list Z) : list Z :=
  imap (λ i x, if Qltb (draw_unit r i) rate then py_not x else x) xs.

(** [l] refers to an individual whose gene array is the object [g] with
    contents [xs], and whose fitness is [f]. *)
Definition is_ind (h : gmap loc obj) (l g : loc) (xs : list Z) (f : Fitness) : Prop :=
  h !! l = Some (OInd g f) ∧ h !! g = Some (ndarray xs).

Definition fresh_loc (h : gmap loc obj) : loc := fresh (dom h).

(** The store once [Individual(n)] has run: a new array, then a new object. *)
Definition heap_Individual (h : gmap loc obj) (bits : list Z) : gmap loc obj :=
  let h1 := <[fresh_loc h := ndarray bits]> h in
  <[fresh_loc h1 := OInd (fresh_loc h) NegInf]> h1.

Definition loc_Individual (h : gmap loc obj) (bits : list Z) : loc :=
  fresh_loc (<[fresh_loc h := ndarray bits]> h).

(** The store once [mutate] has run on an individual with genes [xs]:
    the copy [a] holds the mutated genes, [Individual(len(xs))] has
    allocated an array of [bits] and the child, and the child's [genes]
    has been rebound to the copy. *)
Definition heap_mutate (h : gmap loc obj) (new_genes bits : list Z) : gmap loc obj :=
  let h1 := <[fresh_loc h := ndarray new_genes]> h in
  <[loc_Individual h1 bits := OInd (fresh_loc h) NegInf]> (heap_Individual h1 bits).

Definition loc_mutate (h : gmap loc obj) (new_genes bits : list Z) : loc :=
  loc_Individual (<[fresh_loc h := ndarray new_genes]> h) bits.

(** A concrete store for the examples: the array [[1; 0; 1]] at 1 and an
    unevaluated individual at 2 that owns it; a concrete generator. *)
Definition example_heap : gmap loc obj :=
  <[2%positive := OInd 1 NegInf]> (<[1%positive := ndarray [1; 0; 1]]> ∅).

Definition example_tape (k : nat) : N :=
  match k with
  | 0%nat => 0
  | 1%nat => 4503599627370496
  | 2%nat => 9007199254740991
  | _ => N.of_nat k
  end.

Definition example_state : state := mkState example_heap (mkRng example_tape 0).

Definition is_bit (x : Z) : Prop := x = 0 ∨ x = 1.

(** An objective that reads nothing of the individual but its genes. *)
Definition reads_only_genes (objective : objective_fn) : Prop :=
  ∀ i j, genes i = genes j → objective i = objective j.

(** A fitness trace is non-decreasing. *)
Definition non_decreasing (fits : list Fitness) : Prop :=
  ∀ i j a b, (i ≤ j)%nat → fits !! i = Some a → fits !! j = Some b → fit_le a b.

(** A member of the population as the proofs track it: the object, its
    gene array, the genes and the fitness. *)
Record candidate := mkCand { c_loc : loc; c_arr : loc; c_genes : list Z; c_fit : Fitness }.

Definition cand_valid (h : gmap loc obj) (c : candidate) : Prop :=
  is_ind h (c_loc c) (c_arr c) (c_genes c) (c_fit c).

(** [best] is the first index at which [fs] is maximal. *)
Definition is_first_argmax (fs : list Fitness) (best : nat) : Prop :=
  ∃ fb, fs !! best = Some fb
        ∧ (∀ j f, fs !! j = Some f → fit_le f fb)
        ∧ (∀ j f, (j < best)%nat → fs !! j = Some f → fit_lt f fb).

(** What holds after [k] iterations of the offspring loop that started in
    the store [h0] with generator [r0], for the expert [e]: the population
    is the expert followed by [k] offspring, every offspring is an object
    that [h0] did not have, carries the genes [mutate] computed from the
    expert's with the draws of its own call, and has been evaluated;
    [best] is the first index of the maximal fitness; nothing of [h0] has
    changed; each call of [mutate] has consumed [2 * len(genes)] words. *)
Definition offspring_inv (default_rate : Q) (objective : objective_fn)
    (h0 : gmap loc obj) (r0 : Rng) (e : candidate)
    (k : nat) (cands : list candidate) (best : nat) (s : state) : Prop :=
  let n := length (c_genes e) in
  length cands = S k
  ∧ cands !! 0%nat = Some e
  ∧ Forall (cand_valid (heap s)) cands
  ∧ (∀ j c, cands !! S j = Some c →
       h0 !! c_loc c = None ∧ h0 !! c_arr c = None
       ∧ c_genes c = mutated default_rate (advance r0 (j * (n + n))) (c_genes e)
       ∧ c_fit c = objective {| genes := c_genes c; fitness := NegInf |})
  ∧ is_first_argmax (c_fit <$> cands) best
  ∧ (∀ l o, h0 !! l = Some o → heap s !! l = Some o)
  ∧ rng s = advance r0 (k * (n + n)).

(** The generator whose every word is 0: every drawn bit is 0 and every
    draw of [rand()] is 0. *)
Definition zero_state : state := mkState ∅ (mkRng (λ _, 0%N) 0).

(** The sum of the values of a returned trace ([-inf] and a raised
    exception count 0), and its total over a finite sample of initial
    states: the sample mean of a run is this total over the sample size. *)
Definition trace_total (o : outcome (list Fitness)) : Z :=
  match o with
  | Ok fits _ => foldr (λ f acc, match f with Fin z => z + acc | NegInf => acc end) 0 fits
  | Raise _ => 0
  end.

Definition sample_total (run : M (list Fitness)) (samples : list state) : Z :=
  foldr (λ s acc, trace_total (run s) + acc) 0 samples.

(** The generator whose every draw of [rand()] is 1/8. *)
Definition eighth_state : state :=
  mkState example_heap (mkRng (λ _, 1125899906842624%N) 0).

(** ** The vocabulary of the further properties *)

(** A genome of [n] bits. *)
Definition bit_genome (n : nat) (xs : list Z) : Prop :=
  length xs = n ∧ Forall is_bit xs.

(** [f] is what [objective] returns on an individual with the genome [xs]
    of [n] bits that has not been evaluated before. *)
Definition scored (objective : objective_fn) (n : nat) (xs : list Z) (f : Fitness) : Prop :=
  bit_genome n xs ∧ f = objective {| genes := xs; fitness := NegInf |}.

(** The loop body of cell 28, which runs the (1+1) step on a parent that
    was never evaluated:
    [child = mutate(parent); evaluate(child, onemax);
     if child.fitness >= parent.fitness: parent = child]. *)
Definition cell_28_step (default_rate : Q) (i : nat) (parent : loc) : M loc :=
  child ← mutate default_rate parent None;
  evaluate child onemax;;
  cf ← get_fitness child;
  pf ← get_fitness parent;
  mret (if fit_geb cf pf then child else parent).

(** Cell 28, with the global [n = 20] of cell 19: [parent = Individual(n)],
    the loop over [range(20)], and the [parent.fitness] it prints. *)
Definition cell_28 (default_rate : Q) : M Fitness :=
  parent ← Individual 20;
  parent ← for_each (seq 0 20) (cell_28_step default_rate) parent;
  get_fitness parent.

(** The store of the examples after [evaluate(ind, onemax)], with the
    generator whose every draw of [rand()] is 1/8: under the rate 1/10 no
    gene is flipped, so a child ties with its parent. *)
Definition tie_state : state :=
  mkState (<[2%positive := OInd 1 (Fin 2)]> example_heap) (mkRng (λ _, 1125899906842624%N) 0).

(** A fitness that the float64 array [fits] made by [np.zeros] stores
    unchanged: [-inf], or an integer of magnitude at most 2^53.  (A larger
    integer is rounded by [fits[i] = ...], and one beyond the float range
    makes it raise.) *)
Definition float64_exact (f : Fitness) : Prop :=
  match f with
  | NegInf => True
  | Fin z => - 2 ^ 53 ≤ z ≤ 2 ^ 53
  end.

(** The objective returns a fitness that [fits] stores unchanged on every
    unevaluated individual with a genome of [n] bits. *)
Definition float64_exact_on (objective : objective_fn) (n : nat) : Prop :=
  ∀ ys, bit_genome n ys → float64_exact (objective {| genes := ys; fitness := NegInf |}).

(** ** Reasoning about runs *)

Lemma bind_Ok {A B} (m : M A) (k : A → M B) s a s' :
  m s = Ok a s' → (m ≫= k) s = k a s'.
Proof. intros E. unfold mbind, M_bind. by rewrite E. Qed.

Lemma bind_Raise {A B} (m : M A) (k : A → M B) s e :
  m s = Raise e → (m ≫= k) s = Raise e.
Proof. intros E. unfold mbind, M_bind. by rewrite E. Qed.

Lemma bind_inv_Ok {A B} (m : M A) (k : A → M B) s b s'' :
  (m ≫= k) s = Ok b s'' → ∃ a s', m s = Ok a s' ∧ k a s' = Ok b s''.
Proof.
  unfold mbind, M_bind. destruct (m s) as [a s'|e] eqn:E; [|done].
  intros Hk. by exists a, s'.
Qed.

Lemma advance_0 r : advance r 0 = r.
Proof. destruct r as [t p]. unfold advance; simpl. f_equal. lia. Qed.

Lemma advance_advance r j k : advance (advance r j) k = advance r (j + k).
Proof. unfold advance; simpl. f_equal. lia. Qed.

Lemma advance_S r k : mkRng (tape (advance r k)) (S (pos (advance r k))) = advance r (S k).
Proof. unfold advance; simpl. f_equal. lia. Qed.

Lemma draw_bit_advance r j k : draw_bit (advance r j) k = draw_bit r (j + k).
Proof. unfold draw_bit, advance; simpl. by rewrite Nat.add_assoc. Qed.

Lemma draw_unit_advance r j k : draw_unit (advance r j) k = draw_unit r (j + k).
Proof. unfold draw_unit, advance; simpl. by rewrite Nat.add_assoc. Qed.

Lemma next_word_spec h r :
  next_word (mkState h r) = Ok (tape r (pos r)) (mkState h (advance r 1)).
Proof. unfold next_word, advance; simpl. do 3 f_equal. lia. Qed.

Lemma rand_spec h r :
  rand (mkState h r) = Ok (draw_unit r 0) (mkState h (advance r 1)).
Proof.
  unfold rand. erewrite bind_Ok by apply next_word_spec.
  unfold draw_unit. by rewrite Nat.add_0_r.
Qed.

Lemma length_drawn_bits r n : length (drawn_bits r n) = n.
Proof. unfold drawn_bits. by rewrite length_fmap, length_seq. Qed.

Lemma drawn_bits_S r n :
  drawn_bits r (S n) = draw_bit r 0 :: drawn_bits (advance r 1) n.
Proof.
  unfold drawn_bits. simpl. f_equal.
  rewrite <- fmap_S_seq, <- list_fmap_compose.
  apply list_fmap_ext. intros i x _. simpl. by rewrite draw_bit_advance.
Qed.

Lemma randint01_spec n h r :
  randint01 n (mkState h r) = Ok (drawn_bits r n) (mkState h (advance r n)).
Proof.
  revert r. induction n as [|n IH]; intros r.
  - simpl. by rewrite advance_0.
  - simpl. erewrite bind_Ok by apply next_word_spec.
    erewrite bind_Ok by apply IH.
    rewrite advance_advance, drawn_bits_S. unfold draw_bit.
    by rewrite Nat.add_0_r.
Qed.

(** Every drawn gene is a bit. *)
Lemma drawn_bits_bits r n : Forall (λ x, x = 0 ∨ x = 1) (drawn_bits r n).
Proof.
  unfold drawn_bits. apply Forall_fmap, Forall_forall. intros k _. simpl.
  unfold draw_bit.
  assert (tape r (pos r + k) mod 2 < 2)%N as Hlt by (apply N.mod_lt; lia).
  revert Hlt. generalize (tape r (pos r + k) mod 2)%N. intros m Hm. lia.
Qed.

(** A draw of [rand()] lies in [0, 1). *)
Lemma draw_unit_range r k : (0 <= draw_unit r k)%Q ∧ (draw_unit r k < 1)%Q.
Proof.
  unfold draw_unit, Qle, Qlt; simpl.
  assert (tape r (pos r + k) mod Npos rand_resolution < Npos rand_resolution)%N
    as Hlt by (apply N.mod_lt; lia).
  revert Hlt. generalize (tape r (pos r + k) mod Npos rand_resolution)%N.
  intros m Hm. unfold rand_resolution in *. lia.
Qed.

Lemma Qltb_true x y : Qltb x y = true ↔ (x < y)%Q.
Proof.
  unfold Qltb. rewrite negb_true_iff. split.
  - intros E. apply Qnot_le_lt. intros Hle. apply Qle_bool_iff in Hle. congruence.
  - intros Hlt. destruct (Qle_bool y x) eqn:E; [|done].
    apply Qle_bool_iff in E. by apply Qlt_not_le in Hlt.
Qed.

Lemma Qltb_false x y : Qltb x y = false ↔ (y <= x)%Q.
Proof.
  unfold Qltb. rewrite negb_false_iff. apply Qle_bool_iff.
Qed.

(** *** The store primitives on a known store *)

Lemma fresh_loc_None h : h !! fresh_loc h = None.
Proof. apply (not_elem_of_dom (D := gset loc)). unfold fresh_loc. apply is_fresh. Qed.

Lemma fresh_loc_ne h l o : h !! l = Some o → fresh_loc h ≠ l.
Proof. intros Hl E. rewrite <- E, fresh_loc_None in Hl. done. Qed.

Lemma alloc_spec o h r :
  alloc o (mkState h r) = Ok (fresh_loc h) (mkState (<[fresh_loc h := o]> h) r).
Proof. reflexivity. Qed.

Lemma get_genes_spec h r l g f :
  h !! l = Some (OInd g f) → get_genes l (mkState h r) = Ok g (mkState h r).
Proof. intros E. unfold get_genes; simpl. by rewrite E. Qed.

Lemma get_fitness_spec h r l g f :
  h !! l = Some (OInd g f) → get_fitness l (mkState h r) = Ok f (mkState h r).
Proof. intros E. unfold get_fitness; simpl. by rewrite E. Qed.

Lemma set_genes_spec h r l g f g' :
  h !! l = Some (OInd g f) →
  set_genes l g' (mkState h r) = Ok () (mkState (<[l := OInd g' f]> h) r).
Proof. intros E. unfold set_genes; simpl. by rewrite E. Qed.

Lemma set_fitness_spec h r l g f f' :
  h !! l = Some (OInd g f) →
  set_fitness l f' (mkState h r) = Ok () (mkState (<[l := OInd g f']> h) r).
Proof. intros E. unfold set_fitness; simpl. by rewrite E. Qed.

Lemma read_array_spec h r a xs :
  h !! a = Some (ndarray xs) → read_array a (mkState h r) = Ok xs (mkState h r).
Proof. intros E. unfold read_array; simpl. by rewrite E. Qed.

Lemma array_get_spec h r a xs i x :
  h !! a = Some (ndarray xs) → xs !! i = Some x →
  array_get a i (mkState h r) = Ok x (mkState h r).
Proof.
  intros Ea Ei. unfold array_get.
  erewrite bind_Ok by (by apply read_array_spec). by rewrite Ei.
Qed.

Lemma array_set_spec h r a xs i x :
  h !! a = Some (ndarray xs) → (i < length xs)%nat →
  array_set a i x (mkState h r) = Ok () (mkState (<[a := ndarray (<[i := x]> xs)]> h) r).
Proof.
  intros Ea Hi. unfold array_set; simpl. rewrite Ea.
  by destruct (decide (i < length xs)%nat).
Qed.

Lemma snapshot_spec h r l g xs f :
  is_ind h l g xs f →
  snapshot l (mkState h r) = Ok {| genes := xs; fitness := f |} (mkState h r).
Proof.
  intros [Hl Hg]. unfold snapshot.
  erewrite bind_Ok by (by eapply get_genes_spec).
  erewrite bind_Ok by (by eapply read_array_spec).
  erewrite bind_Ok by (by eapply get_fitness_spec).
  done.
Qed.

Lemma is_ind_insert_other h l g xs f k o :
  is_ind h l g xs f → k ≠ l → k ≠ g → is_ind (<[k := o]> h) l g xs f.
Proof.
  intros [Hl Hg] Hkl Hkg. split; by rewrite lookup_insert_ne.
Qed.

Lemma is_ind_fresh h l g xs f o :
  is_ind h l g xs f → is_ind (<[fresh_loc h := o]> h) l g xs f.
Proof.
  intros Hi. pose proof Hi as [Hl Hg].
  apply is_ind_insert_other; [done | by eapply fresh_loc_ne ..].
Qed.

Lemma is_ind_ne h l g xs f : is_ind h l g xs f → l ≠ g.
Proof. intros [Hl Hg] E. subst. congruence. Qed.

(** *** [Individual], [evaluate] and [mutate] on a known store *)

Lemma Individual_spec n h r :
  0 ≤ n →
  Individual n (mkState h r) =
    Ok (loc_Individual h (drawn_bits r (Z.to_nat n)))
       (mkState (heap_Individual h (drawn_bits r (Z.to_nat n))) (advance r (Z.to_nat n))).
Proof.
  intros Hn. unfold Individual. destruct (decide (n < 0)); [lia|].
  erewrite bind_Ok by apply randint01_spec.
  erewrite bind_Ok by apply alloc_spec.
  by rewrite alloc_spec.
Qed.

Lemma Individual_negative n s : n < 0 → Individual n s = Raise ValueError.
Proof. intros Hn. unfold Individual. by destruct (decide (n < 0)). Qed.

Lemma loc_Individual_None h bits : h !! loc_Individual h bits = None.
Proof.
  unfold loc_Individual.
  pose proof (fresh_loc_None (<[fresh_loc h := ndarray bits]> h)) as E.
  apply lookup_insert_None in E. tauto.
Qed.

Lemma heap_Individual_is_ind h bits :
  is_ind (heap_Individual h bits) (loc_Individual h bits) (fresh_loc h) bits NegInf.
Proof.
  unfold heap_Individual, loc_Individual, is_ind; simpl.
  set (h1 := <[fresh_loc h := ndarray bits]> h).
  split; [by rewrite lookup_insert_eq|].
  rewrite lookup_insert_ne.
  - unfold h1. by rewrite lookup_insert_eq.
  - eapply fresh_loc_ne. unfold h1. by rewrite lookup_insert_eq.
Qed.

Lemma heap_Individual_frame h bits l o :
  h !! l = Some o → heap_Individual h bits !! l = Some o.
Proof.
  intros Hl. unfold heap_Individual; simpl.
  rewrite lookup_insert_ne.
  - rewrite lookup_insert_ne; [done | by eapply fresh_loc_ne].
  - eapply fresh_loc_ne. rewrite lookup_insert_ne; [done | by eapply fresh_loc_ne].
Qed.

Lemma evaluate_spec objective h r l g xs f :
  is_ind h l g xs f →
  evaluate l objective (mkState h r) =
    Ok None (mkState (<[l := OInd g (objective {| genes := xs; fitness := f |})]> h) r).
Proof.
  intros Hi. unfold evaluate.
  erewrite bind_Ok by (by eapply snapshot_spec).
  destruct Hi as [Hl Hg].
  erewrite bind_Ok by (by eapply set_fitness_spec).
  done.
Qed.

Lemma length_mutated rate r xs : length (mutated rate r xs) = length xs.
Proof. unfold mutated. apply length_imap. Qed.

Lemma lookup_mutated rate r xs k x :
  xs !! k = Some x →
  mutated rate r xs !! k = Some (if Qltb (draw_unit r k) rate then py_not x else x).
Proof. intros E. unfold mutated. by rewrite list_lookup_imap, E. Qed.

(** One iteration of the loop of [mutate] at index [k]. *)
Lemma mutate_step_spec rate ind g f xs a cur h r k x :
  h !! ind = Some (OInd g f) → h !! g = Some (ndarray xs) → h !! a = None →
  xs !! k = Some x → (k < length cur)%nat →
  mutate_step ind a rate k () (mkState (<[a := ndarray cur]> h) r)
  = Ok () (mkState
             (<[a := ndarray (if Qltb (draw_unit r 0) rate then <[k := py_not x]> cur else cur)]> h)
             (advance r 1)).
Proof.
  intros Hind Hg Ha Hx Hk.
  assert (a ≠ ind) as Hai by (intros ->; congruence).
  assert (a ≠ g) as Hag by (intros ->; congruence).
  unfold mutate_step.
  erewrite bind_Ok by apply rand_spec.
  destruct (Qltb (draw_unit r 0) rate); [|done].
  erewrite bind_Ok by (eapply get_genes_spec; by rewrite lookup_insert_ne).
  erewrite bind_Ok by (eapply array_get_spec; [by rewrite lookup_insert_ne | done]).
  erewrite array_set_spec; [|by rewrite lookup_insert_eq|done].
  by rewrite insert_insert_eq.
Qed.

(** The loop of [mutate], from index [k] on: the copy holds the mutated
    genes below [k] and the parent's genes from [k] on. *)
Lemma mutate_loop_spec rate ind g f xs a h r :
  h !! ind = Some (OInd g f) → h !! g = Some (ndarray xs) → h !! a = None →
  ∀ m k, (k + m = length xs)%nat →
    for_each (seq k m) (mutate_step ind a rate) ()
      (mkState (<[a := ndarray (take k (mutated rate r xs) ++ drop k xs)]> h) (advance r k))
    = Ok () (mkState (<[a := ndarray (mutated rate r xs)]> h) (advance r (length xs))).
Proof.
  intros Hind Hg Ha.
  induction m as [|m IH]; intros k Hk.
  - simpl. rewrite Nat.add_0_r in Hk. subst k.
    rewrite <- (length_mutated rate r xs) at 1.
    rewrite firstn_all, drop_all, app_nil_r. done.
  - simpl.
    destruct (lookup_lt_is_Some_2 xs k) as [x Hx]; [lia|].
    pose proof (lookup_mutated rate r _ _ _ Hx) as Hm.
    assert (length (take k (mutated rate r xs)) = k) as Hlen
      by (rewrite length_take, length_mutated; lia).
    assert ((take k (mutated rate r xs) ++ drop k xs) !! k = Some x) as Hcur.
    { rewrite lookup_app_r by lia. rewrite Hlen, Nat.sub_diag.
      rewrite lookup_drop, Nat.add_0_r. done. }
    erewrite bind_Ok.
    2:{ eapply mutate_step_spec; [done..|]. by eapply lookup_lt_Some. }
    rewrite draw_unit_advance, Nat.add_0_r, advance_advance.
    replace (k + 1)%nat with (S k) by lia.
    replace (if Qltb (draw_unit r k) rate
             then <[k := py_not x]> (take k (mutated rate r xs) ++ drop k xs)
             else take k (mutated rate r xs) ++ drop k xs)
      with (take (S k) (mutated rate r xs) ++ drop (S k) xs).
    { apply IH. lia. }
    rewrite (take_S_r _ _ _ Hm), (drop_S _ _ _ Hx), <- app_assoc. simpl.
    destruct (Qltb (draw_unit r k) rate); [|done].
    rewrite insert_app_r_alt by lia. rewrite Hlen, Nat.sub_diag. done.
Qed.

Lemma mutate_spec default_rate mutation_rate h r l g xs f :
  is_ind h l g xs f →
  let rate := default default_rate mutation_rate in
  let n := length xs in
  let new_genes := mutated rate r xs in
  let bits := drawn_bits (advance r n) n in
  mutate default_rate l mutation_rate (mkState h r) =
    Ok (loc_mutate h new_genes bits)
       (mkState (heap_mutate h new_genes bits) (advance r (n + n))).
Proof.
  intros [Hl Hg] rate n new_genes bits. unfold mutate. fold rate.
  erewrite bind_Ok by (by eapply get_genes_spec).
  erewrite bind_Ok by (by eapply read_array_spec).
  erewrite bind_Ok by apply alloc_spec.
  erewrite bind_Ok.
  2:{ erewrite bind_Ok by (eapply read_array_spec; by rewrite lookup_insert_eq). done. }
  erewrite bind_Ok.
  2:{ pose proof (mutate_loop_spec rate l g f xs (fresh_loc h) h r Hl Hg
                    (fresh_loc_None h) (length xs) 0%nat eq_refl) as Hloop.
      rewrite advance_0 in Hloop. simpl in Hloop. rewrite drop_0 in Hloop.
      apply Hloop. }
  erewrite bind_Ok.
  2:{ erewrite bind_Ok.
      2:{ eapply get_genes_spec. rewrite lookup_insert_ne; [done|by eapply fresh_loc_ne]. }
      erewrite bind_Ok.
      2:{ eapply read_array_spec. rewrite lookup_insert_ne; [done|by eapply fresh_loc_ne]. }
      done. }
  erewrite bind_Ok by (apply Individual_spec; lia).
  rewrite Nat2Z.id. fold n new_genes bits.
  erewrite bind_Ok.
  2:{ eapply set_genes_spec. apply heap_Individual_is_ind. }
  rewrite advance_advance. done.
Qed.

Lemma loc_mutate_None h new_genes bits : h !! loc_mutate h new_genes bits = None.
Proof.
  unfold loc_mutate.
  pose proof (loc_Individual_None (<[fresh_loc h := ndarray new_genes]> h) bits) as E.
  apply lookup_insert_None in E. tauto.
Qed.

Lemma loc_mutate_ne_array h new_genes bits : loc_mutate h new_genes bits ≠ fresh_loc h.
Proof.
  unfold loc_mutate.
  pose proof (loc_Individual_None (<[fresh_loc h := ndarray new_genes]> h) bits) as E.
  apply lookup_insert_None in E. intros Heq. destruct E as [_ E]. by apply E.
Qed.

Lemma heap_mutate_frame h new_genes bits l o :
  h !! l = Some o → heap_mutate h new_genes bits !! l = Some o.
Proof.
  intros Hl. unfold heap_mutate; simpl.
  rewrite lookup_insert_ne.
  - apply heap_Individual_frame. rewrite lookup_insert_ne; [done|by eapply fresh_loc_ne].
  - intros E. fold (loc_mutate h new_genes bits) in E.
    pose proof (loc_mutate_None h new_genes bits) as HN. congruence.
Qed.

Lemma heap_mutate_child h new_genes bits :
  is_ind (heap_mutate h new_genes bits) (loc_mutate h new_genes bits)
         (fresh_loc h) new_genes NegInf.
Proof.
  unfold heap_mutate, is_ind; simpl. fold (loc_mutate h new_genes bits).
  split; [by rewrite lookup_insert_eq|].
  rewrite lookup_insert_ne by apply loc_mutate_ne_array.
  apply heap_Individual_frame. by rewrite lookup_insert_eq.
Qed.

Lemma is_ind_heap_mutate h new_genes bits l g xs f :
  is_ind h l g xs f → is_ind (heap_mutate h new_genes bits) l g xs f.
Proof. intros [Hl Hg]. split; by apply heap_mutate_frame. Qed.

Lemma example_is_ind : is_ind (heap example_state) 2 1 [1; 0; 1] NegInf.
Proof. split; reflexivity. Qed.

(** ** [mutate] *)

(** C4. [mutate] leaves the parent as it was (genome and fitness), and
    every other object that existed before the call; it returns a new
    object, whose gene array is new as well, with fitness [-inf]
    (unevaluated) and with the parent's genes copied and flipped at the
    indices whose draw of [rand()] is below the rate. *)
Theorem mutate_fresh_child_parent_unchanged
    (default_rate : Q) (mutation_rate : option Q) (s : state)
    (parent g : loc) (xs : list Z) (f : Fitness) :
  is_ind (heap s) parent g xs f →
  ∃ child a s',
    mutate default_rate parent mutation_rate s = Ok child s'
    ∧ is_ind (heap s') parent g xs f
    ∧ (∀ l o, heap s !! l = Some o → heap s' !! l = Some o)
    ∧ heap s !! child = None ∧ heap s !! a = None
    ∧ child ≠ parent ∧ a ≠ g ∧ child ≠ a
    ∧ is_ind (heap s') child a
        (mutated (default default_rate mutation_rate) (rng s) xs) NegInf
    ∧ length (mutated (default default_rate mutation_rate) (rng s) xs) = length xs.
Proof.
  destruct s as [h r]; simpl. intros Hi.
  eexists _, _, _. split; [by eapply mutate_spec|]. simpl.
  pose proof Hi as [Hl Hg].
  split; [by apply is_ind_heap_mutate|].
  split; [intros l o; apply heap_mutate_frame|].
  split; [apply loc_mutate_None|].
  split; [apply fresh_loc_None|].
  split; [intros E; pose proof (loc_mutate_None h
            (mutated (default default_rate mutation_rate) r xs)
            (drawn_bits (advance r (length xs)) (length xs))); congruence|].
  split; [by eapply fresh_loc_ne|].
  split; [apply loc_mutate_ne_array|].
  split; [apply heap_mutate_child|apply length_mutated].
Qed.

Lemma mutate_fresh_child_parent_unchanged_witness :
  ∃ child a s',
    mutate (1 # 10) 2%positive (Some (1 # 2)) example_state = Ok child s'
    ∧ is_ind (heap s') 2%positive 1%positive [1; 0; 1] NegInf
    ∧ (∀ l o, heap example_state !! l = Some o → heap s' !! l = Some o)
    ∧ heap example_state !! child = None ∧ heap example_state !! a = None
    ∧ child ≠ 2%positive ∧ a ≠ 1%positive ∧ child ≠ a
    ∧ is_ind (heap s') child a
        (mutated (default (1 # 10) (Some (1 # 2))) (rng example_state) [1; 0; 1]) NegInf
    ∧ length (mutated (default (1 # 10) (Some (1 # 2))) (rng example_state) [1; 0; 1])
      = length [1; 0; 1].
Proof.
  apply (mutate_fresh_child_parent_unchanged (1 # 10) (Some (1 # 2)) example_state
           2%positive 1%positive [1; 0; 1] NegInf).
  split; reflexivity.
Defined.

(** The draws of the example flip the first gene only. *)
Example mutate_example :
  ∃ s', mutate (1 # 10) 2%positive (Some (1 # 2)) example_state = Ok 5%positive s'
        ∧ heap s' !! 5%positive = Some (OInd 3 NegInf)
        ∧ heap s' !! 3%positive = Some (ndarray [0; 0; 1])
        ∧ heap s' !! 2%positive = Some (OInd 1 NegInf)
        ∧ heap s' !! 1%positive = Some (ndarray [1; 0; 1]).
Proof. eexists. split; [vm_compute; reflexivity|]. repeat split. Qed.

Lemma mutated_rate_le_0 rate r xs : (rate <= 0)%Q → mutated rate r xs = xs.
Proof.
  intros Hrate. apply list_eq. intros k.
  destruct (xs !! k) as [x|] eqn:Hx.
  - rewrite (lookup_mutated _ _ _ _ _ Hx).
    assert (Qltb (draw_unit r k) rate = false) as ->; [|done].
    apply Qltb_false. eapply Qle_trans; [done|apply draw_unit_range].
  - apply lookup_ge_None in Hx. apply lookup_ge_None. by rewrite length_mutated.
Qed.

Lemma mutated_rate_ge_1 rate r xs : (1 <= rate)%Q → mutated rate r xs = py_not <$> xs.
Proof.
  intros Hrate. apply list_eq. intros k. rewrite list_lookup_fmap.
  destruct (xs !! k) as [x|] eqn:Hx.
  - rewrite (lookup_mutated _ _ _ _ _ Hx). simpl.
    assert (Qltb (draw_unit r k) rate = true) as ->; [|done].
    apply Qltb_true. eapply Qlt_le_trans; [apply draw_unit_range|done].
  - simpl. apply lookup_ge_None in Hx. apply lookup_ge_None. by rewrite length_mutated.
Qed.

Lemma py_not_bit x : is_bit x → py_not x = 1 - x ∧ py_not (py_not x) = x.
Proof. intros [-> | ->]; by vm_compute. Qed.

(** C5. With [mutation_rate = 0] the child's genome is the parent's; with
    [mutation_rate = 1] every gene is replaced by its negation, which on a
    genome of bits is the bitwise complement [1 - x], and negating twice
    gives the genome back. *)
Theorem mutate_rate_0_identity_rate_1_complement
    (default_rate : Q) (s : state) (parent g : loc) (xs : list Z) (f : Fitness) :
  is_ind (heap s) parent g xs f →
  (∃ child a s',
      mutate default_rate parent (Some 0%Q) s = Ok child s'
      ∧ is_ind (heap s') child a xs NegInf)
  ∧ (∃ child a s',
      mutate default_rate parent (Some 1%Q) s = Ok child s'
      ∧ is_ind (heap s') child a (py_not <$> xs) NegInf)
  ∧ (Forall is_bit xs →
      py_not <$> xs = (λ x, 1 - x) <$> xs ∧ py_not <$> (py_not <$> xs) = xs).
Proof.
  destruct s as [h r]; simpl. intros Hi. split; [|split].
  - eexists _, _, _. split; [by eapply mutate_spec|]. simpl.
    rewrite mutated_rate_le_0 by apply Qle_refl. apply heap_mutate_child.
  - eexists _, _, _. split; [by eapply mutate_spec|]. simpl.
    rewrite mutated_rate_ge_1 by apply Qle_refl. apply heap_mutate_child.
  - intros Hbits. split.
    + apply Forall_fmap_ext_1. eapply Forall_impl; [done|].
      intros x Hx. by apply py_not_bit.
    + rewrite <- list_fmap_compose. rewrite <- (list_fmap_id xs) at 2.
      apply Forall_fmap_ext_1. eapply Forall_impl; [done|].
      intros x Hx. simpl. by apply py_not_bit.
Qed.

Lemma mutate_rate_0_identity_rate_1_complement_witness :
  (∃ child a s',
      mutate (1 # 10) 2%positive (Some 0%Q) example_state = Ok child s'
      ∧ is_ind (heap s') child a [1; 0; 1] NegInf)
  ∧ (∃ child a s',
      mutate (1 # 10) 2%positive (Some 1%Q) example_state = Ok child s'
      ∧ is_ind (heap s') child a (py_not <$> [1; 0; 1]) NegInf)
  ∧ (Forall is_bit [1; 0; 1] →
      py_not <$> [1; 0; 1] = (λ x, 1 - x) <$> [1; 0; 1]
      ∧ py_not <$> (py_not <$> [1; 0; 1]) = [1; 0; 1]).
Proof.
  apply (mutate_rate_0_identity_rate_1_complement (1 # 10) example_state
           2%positive 1%positive [1; 0; 1] NegInf).
  split; reflexivity.
Defined.

(** ** [evaluate] *)

Lemma onemax_reads_only_genes : reads_only_genes onemax.
Proof. intros i j E. unfold onemax. by rewrite E. Qed.

Lemma leading_ones_reads_only_genes : reads_only_genes leading_ones.
Proof. intros i j E. unfold leading_ones. by rewrite E. Qed.

(** C8, as the code has it.  For every individual and every objective,
    [evaluate] stores [objective(ind)] in the fitness attribute, changes
    nothing else, and returns [None].  A second call stores what the
    objective returns on the individual as the first call left it; when the
    objective reads only the genes that is the same fitness, and the second
    call leaves the state as the first one left it. *)
Theorem evaluate_sets_fitness_idempotent
    (objective : objective_fn) (s : state) (ind g : loc) (xs : list Z) (f : Fitness) :
  is_ind (heap s) ind g xs f →
  let v := objective {| genes := xs; fitness := f |} in
  let s' := mkState (<[ind := OInd g v]> (heap s)) (rng s) in
  evaluate ind objective s = Ok None s'
  ∧ is_ind (heap s') ind g xs v
  ∧ (∀ l, l ≠ ind → heap s' !! l = heap s !! l)
  ∧ evaluate ind objective s'
    = Ok None (mkState (<[ind := OInd g (objective {| genes := xs; fitness := v |})]> (heap s))
                       (rng s))
  ∧ (reads_only_genes objective → evaluate ind objective s' = Ok None s').
Proof.
  destruct s as [h r]; simpl. intros Hi.
  pose proof Hi as [Hl Hg]. pose proof (is_ind_ne _ _ _ _ _ Hi) as Hne.
  assert (is_ind (<[ind := OInd g (objective {| genes := xs; fitness := f |})]> h)
            ind g xs (objective {| genes := xs; fitness := f |})) as Hi'.
  { split; [by rewrite lookup_insert_eq | by rewrite lookup_insert_ne]. }
  split; [by apply evaluate_spec|].
  split; [done|].
  split; [intros l Hl'; by rewrite lookup_insert_ne|].
  rewrite (evaluate_spec _ _ _ _ _ _ _ Hi'), insert_insert_eq.
  split; [done|].
  intros Hobj. do 4 f_equal. by apply Hobj.
Qed.

Lemma evaluate_sets_fitness_idempotent_witness :
  let v := onemax {| genes := [1; 0; 1]; fitness := NegInf |} in
  let s' := mkState (<[2%positive := OInd 1 v]> (heap example_state)) (rng example_state) in
  evaluate 2 onemax example_state = Ok None s'
  ∧ is_ind (heap s') 2 1 [1; 0; 1] v
  ∧ (∀ l, l ≠ 2%positive → heap s' !! l = heap example_state !! l)
  ∧ evaluate 2 onemax s' = Ok None s'.
Proof.
  destruct (evaluate_sets_fitness_idempotent onemax example_state 2 1 [1; 0; 1] NegInf)
    as (H1 & H2 & H3 & _ & H5).
  - split; reflexivity.
  - split; [exact H1|]. split; [exact H2|]. split; [exact H3|].
    apply H5. intros i j E. unfold onemax. rewrite E. reflexivity.
Defined.

(** C8 as the spec words it fails: the call returns [None], not the fitness
    it has just stored. *)
Lemma evaluate_returns_None_counterexample :
  ∃ s', evaluate 2 onemax example_state = Ok None s'
        ∧ get_fitness 2 s' = Ok (Fin 2) s'
        ∧ (None : option Fitness) ≠ Some (Fin 2).
Proof. eexists. split; [reflexivity|]. split; [reflexivity|done]. Qed.

(** An objective that reads the stored fitness is not idempotent under
    [evaluate]: the second call sees what the first one wrote. *)
Example evaluate_fitness_reading_objective :
  let bump (i : individual) :=
    match fitness i with NegInf => Fin 0 | Fin z => Fin (z + 1) end in
  ∃ s1 s2, evaluate 2 bump example_state = Ok None s1
           ∧ evaluate 2 bump s1 = Ok None s2
           ∧ get_fitness 2 s1 = Ok (Fin 0) s1
           ∧ get_fitness 2 s2 = Ok (Fin 1) s2.
Proof. eexists _, _. repeat split. Qed.

(** ** [leading_ones] *)

(** The loop never finds a zero: [f] keeps its initial value. *)
Lemma leading_ones_loop_no_zero gs f m k :
  Forall (λ x, x ≠ 0) gs → leading_ones_loop gs (seq k m) f = f.
Proof.
  intros Hnz. revert k. induction m as [|m IH]; intros k; simpl; [done|].
  destruct (gs !! k) as [x|] eqn:Hx; [|done].
  destruct (decide (x = 0)) as [->|_]; [|apply IH].
  rewrite Forall_lookup in Hnz. by specialize (Hnz _ _ Hx).
Qed.

(** The loop breaks at the first zero and returns its index. *)
Lemma leading_ones_loop_first_zero pre post f m k :
  Forall (λ x, x ≠ 0) pre →
  (k ≤ length pre)%nat → (length pre < k + m)%nat →
  leading_ones_loop (pre ++ 0 :: post) (seq k m) f = Z.of_nat (length pre).
Proof.
  intros Hnz. revert k. induction m as [|m IH]; intros k Hk Hm; simpl; [lia|].
  destruct (decide (k = length pre)) as [->|Hne].
  - rewrite list_lookup_middle by done. by destruct (decide (0 = 0)).
  - destruct (lookup_lt_is_Some_2 pre k) as [x Hx]; [lia|].
    rewrite lookup_app_l by lia. rewrite Hx.
    rewrite Forall_lookup in Hnz. pose proof (Hnz _ _ Hx) as Hx0.
    destruct (decide (x = 0)); [done|]. apply IH; lia.
Qed.

(** On a genome with a zero, [leading_ones] is the index of the first one. *)
Lemma leading_ones_first_zero pre post f :
  Forall (λ x, x ≠ 0) pre →
  leading_ones {| genes := pre ++ 0 :: post; fitness := f |} = Fin (Z.of_nat (length pre)).
Proof.
  intros Hnz. unfold leading_ones; simpl. f_equal.
  apply leading_ones_loop_first_zero; [done|lia|].
  rewrite length_app; simpl. lia.
Qed.

Example leading_ones_11101 f :
  leading_ones {| genes := [1; 1; 1; 0; 1]; fitness := f |} = Fin 3.
Proof. reflexivity. Qed.

Lemma leading_ones_first_bit_zero post f :
  leading_ones {| genes := 0 :: post; fitness := f |} = Fin 0.
Proof. apply (leading_ones_first_zero [] post f). constructor. Qed.

(** C1, where the code departs from it.  On a genome without a zero the
    loop never assigns [f], so [leading_ones] returns the initial [f = 0],
    not the length of the genome; this holds for the all-ones genome of
    every length. *)
Theorem leading_ones_all_ones_returns_0 (n : nat) (f : Fitness) :
  leading_ones {| genes := replicate n 1; fitness := f |} = Fin 0.
Proof.
  unfold leading_ones; simpl. f_equal.
  apply leading_ones_loop_no_zero.
  apply Forall_replicate. done.
Qed.

Example leading_ones_111 f :
  leading_ones {| genes := [1; 1; 1]; fitness := f |} = Fin 0
  ∧ Fin 0 ≠ Fin (Z.of_nat (length [1; 1; 1])).
Proof. split; [reflexivity|discriminate]. Qed.

(** [onemax] counts the ones. *)
Lemma onemax_all_ones n f :
  onemax {| genes := replicate n 1; fitness := f |} = Fin (Z.of_nat n).
Proof.
  unfold onemax; simpl. f_equal.
  induction n as [|n IH]; simpl; [done|]. rewrite IH. lia.
Qed.

Lemma onemax_all_zeros n f :
  onemax {| genes := replicate n 0; fitness := f |} = Fin 0.
Proof.
  unfold onemax; simpl. f_equal.
  induction n as [|n IH]; simpl; [done|]. by rewrite IH.
Qed.

(** ** Loops *)

Lemma fit_le_refl a : fit_le a a.
Proof. destruct a; unfold fit_le; simpl; [done|]. apply Z.leb_refl. Qed.

Lemma fit_le_trans a b c : fit_le a b → fit_le b c → fit_le a c.
Proof.
  unfold fit_le. destruct a, b, c; simpl; try done.
  rewrite !Z.leb_le. lia.
Qed.

Lemma fit_lt_le a b : fit_lt a b → fit_le a b.
Proof.
  unfold fit_lt, fit_le. destruct a, b; simpl; try done.
  rewrite Z.leb_gt, Z.leb_le. lia.
Qed.

Lemma fit_le_lt_trans a b c : fit_le a b → fit_lt b c → fit_lt a c.
Proof.
  unfold fit_le, fit_lt. destruct a, b, c; simpl; try done.
  rewrite Z.leb_le, !Z.leb_gt. lia.
Qed.

Lemma fit_geb_false_le a b : fit_geb a b = false → fit_le a b.
Proof. intros E. apply fit_lt_le. exact E. Qed.

Lemma fit_gtb_true_lt a b : fit_gtb a b = true → fit_lt b a.
Proof. unfold fit_gtb, fit_lt. by rewrite negb_true_iff. Qed.

Lemma fit_gtb_false_le a b : fit_gtb a b = false → fit_le a b.
Proof. unfold fit_gtb, fit_le. by rewrite negb_false_iff. Qed.

(** The rule for a [for] loop: an invariant indexed by the number of
    iterations done, which every iteration re-establishes, holds at the end,
    and the loop returns. *)
Lemma for_each_invariant {A S : Type} (xs : list A) (body : A → S → M S) :
  ∀ (I : nat → S → state → Prop),
    (∀ k x acc s, xs !! k = Some x → I k acc s →
       ∃ acc' s', body x acc s = Ok acc' s' ∧ I (Datatypes.S k) acc' s') →
    ∀ acc s, I 0%nat acc s →
      ∃ acc' s', for_each xs body acc s = Ok acc' s' ∧ I (length xs) acc' s'.
Proof.
  induction xs as [|x xs IH]; intros I Hstep acc s H0.
  - exists acc, s. by split.
  - destruct (Hstep 0%nat x acc s eq_refl H0) as (acc1 & s1 & E1 & H1).
    destruct (IH (λ k, I (Datatypes.S k))
                 (λ k y, Hstep (Datatypes.S k) y) acc1 s1 H1) as (acc2 & s2 & E2 & H2).
    exists acc2, s2. split; [|done].
    simpl. by erewrite bind_Ok.
Qed.

(** A generational loop whose step keeps a valid individual, never lowers
    its fitness and records it at index [i]: the loop returns, and the
    trace is non-decreasing and bounded below by the initial fitness. *)
Lemma elitist_loop (step : nat → loc * list Fitness → M (loc * list Fitness)) :
  (∀ i p fits s g xs f,
      is_ind (heap s) p g xs f →
      ∃ p' g' xs' f' s',
        step i (p, fits) s = Ok (p', <[i := f']> fits) s'
        ∧ is_ind (heap s') p' g' xs' f' ∧ fit_le f f') →
  ∀ fits0 p s g xs f0,
    is_ind (heap s) p g xs f0 →
    ∃ p' fits s',
      for_each (seq 0 (length fits0)) step (p, fits0) s = Ok (p', fits) s'
      ∧ length fits = length fits0
      ∧ non_decreasing fits
      ∧ (∀ j a, fits !! j = Some a → fit_le f0 a).
Proof.
  intros Hstep fits0 p s g xs f0 Hi.
  set (I := λ (k : nat) (st : loc * list Fitness) (s : state),
         length st.2 = length fits0
         ∧ ∃ g xs f, is_ind (heap s) st.1 g xs f ∧ fit_le f0 f
           ∧ (∀ j a, (j < k)%nat → st.2 !! j = Some a → fit_le a f ∧ fit_le f0 a)
           ∧ (∀ j j' a b, (j ≤ j')%nat → (j' < k)%nat →
                st.2 !! j = Some a → st.2 !! j' = Some b → fit_le a b)).
  destruct (for_each_invariant (seq 0 (length fits0)) step I) with (acc := (p, fits0)) (s := s)
    as ([p' fits] & s' & E & Hlen & g' & xs' & f' & Hi' & Hf0 & Hbound & Hsorted).
  - intros k x [q fits] s1 Hx (Hlen & g1 & xs1 & f1 & Hi1 & Hf01 & Hbound & Hsorted).
    simpl in *. apply lookup_seq in Hx as [-> Hk]. simpl.
    destruct (Hstep k q fits s1 g1 xs1 f1 Hi1) as (q' & g2 & xs2 & f2 & s2 & E & Hi2 & Hle).
    exists (q', <[k := f2]> fits), s2. split; [done|]. split; simpl.
    { by rewrite length_insert. }
    exists g2, xs2, f2. split; [done|]. split; [by eapply fit_le_trans|].
    assert (∀ j a, (j < Datatypes.S k)%nat → <[k := f2]> fits !! j = Some a →
                   fit_le a f2 ∧ fit_le f0 a) as Hbound'.
    { intros j a Hj Ha. destruct (decide (j = k)) as [->|Hne].
      - rewrite list_lookup_insert_eq in Ha by lia. injection Ha as <-.
        split; [apply fit_le_refl | by eapply fit_le_trans].
      - rewrite list_lookup_insert_ne in Ha by done.
        destruct (Hbound j a) as [H1 H2]; [lia|done|].
        split; [by eapply fit_le_trans | done]. }
    split; [done|].
    intros j j' a b Hjj' Hj' Ha Hb. destruct (decide (j' = k)) as [->|Hne].
    + rewrite list_lookup_insert_eq in Hb by lia. injection Hb as <-.
      by apply (Hbound' j a); [lia|].
    + rewrite list_lookup_insert_ne in Hb by done.
      rewrite list_lookup_insert_ne in Ha by lia.
      apply (Hsorted j j' a b); [lia|lia|done..].
  - split; [done|]. exists g, xs, f0. split; [done|]. split; [apply fit_le_refl|].
    split; intros; lia.
  - rewrite length_seq in *. simpl in *.
    exists p', fits, s'. split; [done|]. split; [done|]. split.
    + intros i j a b Hij Ha Hb. apply (Hsorted i j a b); [done| |done..].
      apply lookup_lt_Some in Hb. lia.
    + intros j a Ha. apply (Hbound j a); [|done].
      apply lookup_lt_Some in Ha. lia.
Qed.

(** ** [one_plus_one] *)

(** One generation of [one_plus_one] on a known store: the child is the
    mutant of the parent, it is evaluated, and it replaces the parent
    exactly when its fitness is [>=] the parent's. *)
Lemma one_plus_one_step_spec default_rate objective i parent fits h r g xs f :
  is_ind h parent g xs f →
  let new_genes := mutated default_rate r xs in
  let bits := drawn_bits (advance r (length xs)) (length xs) in
  let child := loc_mutate h new_genes bits in
  let cf := objective {| genes := new_genes; fitness := NegInf |} in
  let h' := <[child := OInd (fresh_loc h) cf]> (heap_mutate h new_genes bits) in
  one_plus_one_step default_rate objective i (parent, fits) (mkState h r) =
    Ok (if fit_geb cf f then child else parent,
        <[i := if fit_geb cf f then cf else f]> fits)
       (mkState h' (advance r (length xs + length xs)))
  ∧ is_ind h' child (fresh_loc h) new_genes cf
  ∧ is_ind h' parent g xs f.
Proof.
  intros Hi new_genes bits child cf h'.
  pose proof (heap_mutate_child h new_genes bits) as Hc. fold child in Hc.
  assert (child ≠ parent ∧ child ≠ g) as [Hcp Hcg].
  { destruct Hi as [Hl Hg]. pose proof (loc_mutate_None h new_genes bits) as HN.
    fold child in HN. split; intros ->; congruence. }
  assert (is_ind h' child (fresh_loc h) new_genes cf) as Hc'.
  { destruct Hc as [Hc1 Hc2]. unfold h'. split; [by rewrite lookup_insert_eq|].
    rewrite lookup_insert_ne; [done|]. apply loc_mutate_ne_array. }
  assert (is_ind h' parent g xs f) as Hp'.
  { unfold h'. apply is_ind_insert_other; [by apply is_ind_heap_mutate|done..]. }
  split; [|done].
  unfold one_plus_one_step.
  erewrite bind_Ok by (by eapply (mutate_spec default_rate None)).
  change (default default_rate None) with default_rate.
  fold new_genes bits child.
  erewrite bind_Ok by (by eapply evaluate_spec).
  fold cf h'.
  erewrite bind_Ok by (eapply get_fitness_spec; apply Hc').
  erewrite bind_Ok by (eapply get_fitness_spec; apply Hp').
  destruct (fit_geb cf f).
  - erewrite bind_Ok by (eapply get_fitness_spec; apply Hc'). done.
  - erewrite bind_Ok by (eapply get_fitness_spec; apply Hp'). done.
Qed.

Lemma one_plus_one_step_elitist default_rate objective i p fits s g xs f :
  is_ind (heap s) p g xs f →
  ∃ p' g' xs' f' s',
    one_plus_one_step default_rate objective i (p, fits) s = Ok (p', <[i := f']> fits) s'
    ∧ is_ind (heap s') p' g' xs' f' ∧ fit_le f f'.
Proof.
  destruct s as [h r]. intros Hi. simpl in Hi.
  destruct (one_plus_one_step_spec default_rate objective i p fits h r g xs f Hi)
    as (E & Hc & Hp).
  rewrite E.
  destruct (fit_geb (objective {| genes := mutated default_rate r xs; fitness := NegInf |}) f)
    eqn:Hge.
  - eexists _, _, _, _, _. split; [done|]. split; [exact Hc|]. exact Hge.
  - eexists _, _, _, _, _. split; [done|]. split; [exact Hp|]. apply fit_le_refl.
Qed.

Lemma np_zeros_spec n s :
  0 ≤ n → np_zeros n s = Ok (replicate (Z.to_nat n) (Fin 0)) s.
Proof. intros Hn. unfold np_zeros. by destruct (decide (n < 0)); [lia|]. Qed.

(** The individual that [Individual(n)] followed by [evaluate] leaves. *)
Lemma Individual_evaluate_spec n objective h r :
  0 ≤ n →
  let bits := drawn_bits r (Z.to_nat n) in
  let l := loc_Individual h bits in
  let f0 := objective {| genes := bits; fitness := NegInf |} in
  let h' := <[l := OInd (fresh_loc h) f0]> (heap_Individual h bits) in
  (Individual n ≫= λ l, evaluate l objective ≫= λ _, mret l) (mkState h r)
    = Ok l (mkState h' (advance r (Z.to_nat n)))
  ∧ is_ind h' l (fresh_loc h) bits f0.
Proof.
  intros Hn bits l f0 h'.
  pose proof (heap_Individual_is_ind h bits) as Hi. fold l in Hi.
  split.
  - erewrite bind_Ok by (by apply Individual_spec).
    fold bits l.
    erewrite bind_Ok by (by eapply evaluate_spec). done.
  - pose proof (is_ind_ne _ _ _ _ _ Hi) as Hne. destruct Hi as [H1 H2].
    unfold h'. split; [by rewrite lookup_insert_eq | by rewrite lookup_insert_ne].
Qed.

(** A run of [one_plus_one] returns a trace of [num_generations] values,
    non-decreasing, none below the fitness of the initial individual. *)
Lemma one_plus_one_run default_rate ind_length num_generations objective h r :
  0 ≤ ind_length → 0 ≤ num_generations →
  ∃ fits s',
    one_plus_one default_rate ind_length num_generations objective (mkState h r) = Ok fits s'
    ∧ length fits = Z.to_nat num_generations
    ∧ non_decreasing fits
    ∧ (∀ j a, fits !! j = Some a →
         fit_le (objective {| genes := drawn_bits r (Z.to_nat ind_length);
                              fitness := NegInf |}) a).
Proof.
  intros Hn Hgens.
  destruct (Individual_evaluate_spec ind_length objective h r Hn) as [E0 Hi0].
  apply bind_inv_Ok in E0 as (l0 & s0 & EI & E0).
  apply bind_inv_Ok in E0 as (o & s1 & EE & E0).
  injection E0 as -> ->.
  destruct (elitist_loop (one_plus_one_step default_rate objective)
              (λ i p fits s g xs f, one_plus_one_step_elitist default_rate objective i p fits s g xs f)
              (replicate (Z.to_nat num_generations) (Fin 0))
              _ (mkState _ (advance r (Z.to_nat ind_length))) _ _ _ Hi0)
    as (p' & fits & s' & E & Hlen & Hsorted & Hbound).
  exists fits, s'. split.
  - unfold one_plus_one.
    erewrite bind_Ok by (by apply np_zeros_spec).
    erewrite bind_Ok by exact EI.
    erewrite bind_Ok by exact EE.
    erewrite bind_Ok by exact E. done.
  - rewrite length_replicate in Hlen. done.
Qed.

(** C3. For a length above 0 and a number of generations that [np.zeros]
    accepts, [one_plus_one] returns one fitness per generation, and the
    sequence is non-decreasing. *)
Theorem one_plus_one_fitness_non_decreasing
    (default_rate : Q) (ind_length num_generations : Z) (objective : objective_fn)
    (s : state) :
  0 < ind_length → 0 ≤ num_generations →
  ∃ fits s',
    one_plus_one default_rate ind_length num_generations objective s = Ok fits s'
    ∧ length fits = Z.to_nat num_generations
    ∧ non_decreasing fits.
Proof.
  intros Hn Hgens. destruct s as [h r].
  destruct (one_plus_one_run default_rate ind_length num_generations objective h r)
    as (fits & s' & E & Hlen & Hsorted & _); [lia|done|].
  by exists fits, s'.
Qed.

Lemma one_plus_one_fitness_non_decreasing_witness :
  ∃ fits s',
    one_plus_one (1 # 10) 3 4 onemax example_state = Ok fits s'
    ∧ length fits = Z.to_nat 4
    ∧ non_decreasing fits.
Proof.
  apply (one_plus_one_fitness_non_decreasing (1 # 10) 3 4 onemax example_state); lia.
Defined.

(** ** [one_plus_lambda] *)

Lemma first_argmax_singleton f : is_first_argmax [f] 0.
Proof.
  exists f. split; [done|]. split.
  - intros [|j] f' Hj; simpl in Hj; [|done]. injection Hj as <-. apply fit_le_refl.
  - intros j f' Hj. lia.
Qed.

(** The update of [best] in the offspring loop keeps it the first index of
    the maximum. *)
Lemma first_argmax_snoc fs best fb cf :
  is_first_argmax fs best → fs !! best = Some fb →
  is_first_argmax (fs ++ [cf]) (if fit_gtb cf fb then length fs else best).
Proof.
  intros (fb' & Hb & Hmax & Hfirst) Hfb. rewrite Hfb in Hb. injection Hb as <-.
  pose proof (lookup_lt_Some _ _ _ Hfb) as Hlt.
  destruct (fit_gtb cf fb) eqn:Hgt.
  - apply fit_gtb_true_lt in Hgt. exists cf.
    split; [by rewrite lookup_app_r, Nat.sub_diag by lia|].
    split.
    + intros j f Hj. apply lookup_app_Some in Hj as [Hj|[_ Hj]].
      * apply fit_lt_le. eapply fit_le_lt_trans; [by eapply Hmax|done].
      * apply list_lookup_singleton_Some in Hj as [_ <-]. apply fit_le_refl.
    + intros j f Hjl Hj. rewrite lookup_app_l in Hj by done.
      eapply fit_le_lt_trans; [by eapply Hmax|done].
  - apply fit_gtb_false_le in Hgt. exists fb.
    split; [by rewrite lookup_app_l|].
    split.
    + intros j f Hj. apply lookup_app_Some in Hj as [Hj|[_ Hj]].
      * by eapply Hmax.
      * by apply list_lookup_singleton_Some in Hj as [_ <-].
    + intros j f Hjl Hj. rewrite lookup_app_l in Hj by lia. by eapply Hfirst.
Qed.

Lemma cand_valid_fresh_ne h c l : cand_valid h c → h !! l = None → l ≠ c_loc c ∧ l ≠ c_arr c.
Proof. intros [H1 H2] HN. split; intros ->; congruence. Qed.

(** One iteration of the offspring loop re-establishes [offspring_inv]. *)
Lemma offspring_step_inv default_rate objective h0 r0 e k cands best s :
  offspring_inv default_rate objective h0 r0 e k cands best s →
  ∃ cands' best' s',
    offspring_step default_rate (c_loc e) objective (S k) (c_loc <$> cands, best) s
      = Ok (c_loc <$> cands', best') s'
    ∧ offspring_inv default_rate objective h0 r0 e (S k) cands' best' s'.
Proof.
  destruct s as [h r].
  intros (Hlen & H0 & Hvalid & Hoff & Hargmax & Hframe & Hrng). simpl in *.
  set (n := length (c_genes e)) in *.
  assert (cand_valid h e) as He by (by eapply (Forall_lookup_1 _ _ _ _ Hvalid)).
  set (new_genes := mutated default_rate r (c_genes e)).
  set (bits := drawn_bits (advance r n) n).
  set (c := loc_mutate h new_genes bits).
  set (a := fresh_loc h).
  set (hm := heap_mutate h new_genes bits).
  set (cf := objective {| genes := new_genes; fitness := NegInf |}).
  set (he := <[c := OInd a cf]> hm).
  assert (h !! c = None) as HcN by apply loc_mutate_None.
  assert (h !! a = None) as HaN by apply fresh_loc_None.
  assert (is_ind hm c a new_genes NegInf) as Hchild by apply heap_mutate_child.
  assert (c ≠ a) as Hca by apply loc_mutate_ne_array.
  assert (is_ind he c a new_genes cf) as Hchild'.
  { destruct Hchild as [H1 H2]. unfold he.
    split; [by rewrite lookup_insert_eq | by rewrite lookup_insert_ne]. }
  assert (∀ x, cand_valid h x → cand_valid he x) as Hkeep.
  { intros x Hx. destruct (cand_valid_fresh_ne _ _ _ Hx HcN) as [Hn1 Hn2].
    unfold cand_valid, he. apply is_ind_insert_other; [|done..].
    by apply is_ind_heap_mutate. }
  pose proof Hargmax as (fb & Hb & _).
  rewrite list_lookup_fmap in Hb.
  destruct (cands !! best) as [cb|] eqn:Hcb; [|done]. injection Hb as Hfb.
  assert (cand_valid h cb) as Hcbv by (by eapply (Forall_lookup_1 _ _ _ _ Hvalid)).
  assert (((c_loc <$> cands) ++ [c]) !! S k = Some c) as E1.
  { rewrite lookup_app_r by (rewrite length_fmap; lia).
    by rewrite length_fmap, Hlen, Nat.sub_diag. }
  assert (((c_loc <$> cands) ++ [c]) !! best = Some (c_loc cb)) as E2.
  { apply lookup_app_l_Some. by rewrite list_lookup_fmap, Hcb. }
  exists (cands ++ [mkCand c a new_genes cf]),
         (if fit_gtb cf fb then S k else best),
         (mkState he (advance r (n + n))).
  split.
  - unfold offspring_step.
    erewrite bind_Ok by (by eapply (mutate_spec default_rate None)).
    change (default default_rate None) with default_rate.
    fold n new_genes bits c hm.
    cbv zeta. rewrite E1, E2.
    erewrite bind_Ok by (by eapply evaluate_spec).
    fold cf a he.
    erewrite bind_Ok by (eapply get_fitness_spec; apply Hchild').
    erewrite bind_Ok by (eapply get_fitness_spec; apply (Hkeep cb Hcbv)).
    rewrite Hfb, fmap_app. done.
  - unfold offspring_inv. fold n. simpl.
    split; [rewrite length_app; simpl; lia|].
    split; [by apply lookup_app_l_Some|].
    split.
    { apply Forall_app. split.
      - eapply Forall_impl; [exact Hvalid|]. exact Hkeep.
      - by apply Forall_singleton. }
    split.
    { intros j x Hx. apply lookup_app_Some in Hx as [Hx|[Hj Hx]]; [by apply Hoff|].
      apply list_lookup_singleton_Some in Hx as [Hj' <-]. simpl.
      assert (j = k) as -> by lia.
      split.
      { destruct (h0 !! c) as [o|] eqn:E; [|done].
        apply Hframe in E. congruence. }
      split.
      { destruct (h0 !! a) as [o|] eqn:E; [|done].
        apply Hframe in E. congruence. }
      split; [by rewrite <- Hrng | done]. }
    split.
    { rewrite fmap_app. simpl.
      replace (S k) with (length (c_fit <$> cands)) by (by rewrite length_fmap).
      apply first_argmax_snoc; [done|].
      rewrite list_lookup_fmap, Hcb. simpl. by rewrite Hfb. }
    split.
    { intros l o Hl. apply Hframe in Hl. unfold he.
      rewrite lookup_insert_ne by (intros ->; congruence).
      by apply heap_mutate_frame. }
    rewrite Hrng, advance_advance. f_equal. lia.
Qed.

(** The offspring loop of one generation, for an expert that is a valid
    individual: it returns, and [offspring_inv] holds for the
    [lambda - 1] offspring it has produced. *)
Lemma offspring_loop_spec default_rate objective lambda s e :
  cand_valid (heap s) e →
  ∃ cands best s',
    for_each (seq 1 (Z.to_nat (lambda - 1)))
      (offspring_step default_rate (c_loc e) objective) ([c_loc e], 0%nat) s
      = Ok (c_loc <$> cands, best) s'
    ∧ offspring_inv default_rate objective (heap s) (rng s) e
        (Z.to_nat (lambda - 1)) cands best s'.
Proof.
  intros He.
  set (I := λ (k : nat) (st : list loc * nat) (s' : state),
         ∃ cands, st.1 = c_loc <$> cands
                  ∧ offspring_inv default_rate objective (heap s) (rng s) e k cands st.2 s').
  destruct (for_each_invariant (seq 1 (Z.to_nat (lambda - 1)))
              (offspring_step default_rate (c_loc e) objective) I)
    with (acc := ([c_loc e], 0%nat)) (s := s)
    as ([pop best] & s' & E & cands & Hpop & Hinv).
  - intros k x [pop best] s1 Hx (cands & Hpop & Hinv). simpl in *. subst pop.
    apply lookup_seq in Hx as [-> _].
    destruct (offspring_step_inv _ _ _ _ _ _ _ _ _ Hinv) as (cands' & best' & s2 & E & Hinv').
    exists (c_loc <$> cands', best'), s2. split; [done|]. by exists cands'.
  - exists [e]. split; [done|]. unfold offspring_inv; simpl.
    split; [done|]. split; [done|]. split; [by apply Forall_singleton|].
    split; [intros j c Hc; done|].
    split; [apply first_argmax_singleton|].
    split; [done|]. by rewrite advance_0.
  - rewrite length_seq in Hinv. simpl in *. subst pop.
    by exists cands, best, s'.
Qed.

(** One generation of [one_plus_lambda] for a valid expert: the offspring
    loop, then the comparison of the best candidate with the expert, which
    the best candidate always passes. *)
Lemma one_plus_lambda_step_spec default_rate objective lambda i fits s e :
  cand_valid (heap s) e →
  ∃ cands best cb s',
    for_each (seq 1 (Z.to_nat (lambda - 1)))
      (offspring_step default_rate (c_loc e) objective) ([c_loc e], 0%nat) s
      = Ok (c_loc <$> cands, best) s'
    ∧ offspring_inv default_rate objective (heap s) (rng s) e
        (Z.to_nat (lambda - 1)) cands best s'
    ∧ cands !! best = Some cb
    ∧ cand_valid (heap s') cb
    ∧ fit_geb (c_fit cb) (c_fit e) = true
    ∧ one_plus_lambda_step default_rate objective lambda i (c_loc e, fits) s
      = Ok (c_loc cb, <[i := c_fit cb]> fits) s'.
Proof.
  intros He.
  destruct (offspring_loop_spec default_rate objective lambda s e He)
    as (cands & best & s' & E & Hinv).
  pose proof Hinv as (Hlen & H0 & Hvalid & Hoff & Hargmax & Hframe & Hrng).
  destruct Hargmax as (fb & Hb & Hmax & _).
  rewrite list_lookup_fmap in Hb.
  destruct (cands !! best) as [cb|] eqn:Hcb; [|done]. injection Hb as Hfb.
  assert (cand_valid (heap s') cb) as Hcbv by (by eapply (Forall_lookup_1 _ _ _ _ Hvalid)).
  assert (cand_valid (heap s') e) as Hev by (by eapply (Forall_lookup_1 _ _ _ _ Hvalid)).
  assert (fit_geb (c_fit cb) (c_fit e) = true) as Hge.
  { rewrite Hfb. apply (Hmax 0%nat). by rewrite list_lookup_fmap, H0. }
  exists cands, best, cb, s'. do 5 (split; [done|]).
  unfold one_plus_lambda_step.
  erewrite bind_Ok by exact E.
  cbv beta iota zeta.
  rewrite list_lookup_fmap, Hcb. simpl.
  destruct s' as [h' r']. simpl in *.
  erewrite bind_Ok by (eapply get_fitness_spec; apply Hcbv).
  erewrite bind_Ok by (eapply get_fitness_spec; apply Hev).
  rewrite Hge.
  erewrite bind_Ok by (eapply get_fitness_spec; apply Hcbv).
  done.
Qed.

Lemma one_plus_lambda_step_elitist default_rate objective lambda i p fits s g xs f :
  is_ind (heap s) p g xs f →
  ∃ p' g' xs' f' s',
    one_plus_lambda_step default_rate objective lambda i (p, fits) s
      = Ok (p', <[i := f']> fits) s'
    ∧ is_ind (heap s') p' g' xs' f' ∧ fit_le f f'.
Proof.
  intros Hi.
  destruct (one_plus_lambda_step_spec default_rate objective lambda i fits s
              (mkCand p g xs f) Hi)
    as (cands & best & cb & s' & _ & _ & _ & Hcbv & Hge & E).
  exists (c_loc cb), (c_arr cb), (c_genes cb), (c_fit cb), s'.
  split; [exact E|]. split; [exact Hcbv | exact Hge].
Qed.

(** A run of [one_plus_lambda] returns a trace of [num_generations] values,
    non-decreasing, none below the fitness of the initial expert. *)
Lemma one_plus_lambda_run default_rate ind_length num_generations objective lambda h r :
  0 ≤ ind_length → 0 ≤ num_generations →
  ∃ fits s',
    one_plus_lambda default_rate ind_length num_generations objective lambda (mkState h r)
      = Ok fits s'
    ∧ length fits = Z.to_nat num_generations
    ∧ non_decreasing fits
    ∧ (∀ j a, fits !! j = Some a →
         fit_le (objective {| genes := drawn_bits r (Z.to_nat ind_length);
                              fitness := NegInf |}) a).
Proof.
  intros Hn Hgens.
  destruct (Individual_evaluate_spec ind_length objective h r Hn) as [E0 Hi0].
  apply bind_inv_Ok in E0 as (l0 & s0 & EI & E0).
  apply bind_inv_Ok in E0 as (o & s1 & EE & E0).
  injection E0 as -> ->.
  destruct (elitist_loop (one_plus_lambda_step default_rate objective lambda)
              (λ i p fits s g xs f,
                 one_plus_lambda_step_elitist default_rate objective lambda i p fits s g xs f)
              (replicate (Z.to_nat num_generations) (Fin 0))
              _ (mkState _ (advance r (Z.to_nat ind_length))) _ _ _ Hi0)
    as (p' & fits & s' & E & Hlen & Hsorted & Hbound).
  exists fits, s'. split.
  - unfold one_plus_lambda.
    erewrite bind_Ok by (by apply np_zeros_spec).
    erewrite bind_Ok by exact EI.
    erewrite bind_Ok by exact EE.
    erewrite bind_Ok by exact E. done.
  - rewrite length_replicate in Hlen. done.
Qed.

(** C6. One generation of [one_plus_lambda], for [lambda >= 1] and an
    expert that is an evaluated individual.  The population is the expert
    at index 0 followed by exactly [lambda - 1] offspring; offspring [j]
    is a new object holding the genes that [mutate] computes from the
    expert's genes with the draws of the [j]-th call, evaluated by the
    objective; [best] is the first index at which the fitness is maximal;
    the expert becomes the best candidate when that one's fitness is [>=]
    the expert's, and stays otherwise; its fitness is recorded at [i]. *)
Theorem one_plus_lambda_generation
    (default_rate : Q) (objective : objective_fn) (lambda : Z) (i : nat)
    (fits : list Fitness) (s : state) (expert g : loc) (xs : list Z) (f : Fitness) :
  1 ≤ lambda →
  is_ind (heap s) expert g xs f →
  ∃ cands best cb s',
    for_each (seq 1 (Z.to_nat (lambda - 1)))
      (offspring_step default_rate expert objective) ([expert], 0%nat) s
      = Ok (c_loc <$> cands, best) s'
    ∧ length cands = Z.to_nat lambda
    ∧ cands !! 0%nat = Some (mkCand expert g xs f)
    ∧ Forall (cand_valid (heap s')) cands
    ∧ (∀ j c, cands !! S j = Some c →
         heap s !! c_loc c = None
         ∧ c_genes c
           = mutated default_rate (advance (rng s) (j * (length xs + length xs))) xs
         ∧ c_fit c = objective {| genes := c_genes c; fitness := NegInf |})
    ∧ rng s' = advance (rng s) (Z.to_nat (lambda - 1) * (length xs + length xs))
    ∧ is_first_argmax (c_fit <$> cands) best
    ∧ cands !! best = Some cb
    ∧ one_plus_lambda_step default_rate objective lambda i (expert, fits) s
      = Ok (if fit_geb (c_fit cb) f then c_loc cb else expert,
            <[i := if fit_geb (c_fit cb) f then c_fit cb else f]> fits) s'.
Proof.
  intros Hlambda Hi.
  destruct (one_plus_lambda_step_spec default_rate objective lambda i fits s
              (mkCand expert g xs f) Hi)
    as (cands & best & cb & s' & E & Hinv & Hcb & Hcbv & Hge & Estep).
  destruct Hinv as (Hlen & H0 & Hvalid & Hoff & Hargmax & Hframe & Hrng).
  simpl in *.
  exists cands, best, cb, s'.
  split; [exact E|].
  split; [lia|].
  split; [exact H0|].
  split; [exact Hvalid|].
  split; [intros j c Hc; destruct (Hoff j c Hc) as (H1 & _ & H3 & H4); by repeat split|].
  split; [exact Hrng|].
  split; [exact Hargmax|].
  split; [exact Hcb|].
  by rewrite Hge.
Qed.

Lemma one_plus_lambda_generation_witness :
  ∃ cands best cb s',
    for_each (seq 1 (Z.to_nat (3 - 1)))
      (offspring_step (1 # 10) 2%positive onemax) ([2%positive], 0%nat) example_state
      = Ok (c_loc <$> cands, best) s'
    ∧ length cands = Z.to_nat 3
    ∧ cands !! 0%nat = Some (mkCand 2 1 [1; 0; 1] NegInf)
    ∧ Forall (cand_valid (heap s')) cands
    ∧ (∀ j c, cands !! S j = Some c →
         heap example_state !! c_loc c = None
         ∧ c_genes c
           = mutated (1 # 10)
               (advance (rng example_state) (j * (length [1; 0; 1] + length [1; 0; 1])))
               [1; 0; 1]
         ∧ c_fit c = onemax {| genes := c_genes c; fitness := NegInf |})
    ∧ rng s' = advance (rng example_state)
                 (Z.to_nat (3 - 1) * (length [1; 0; 1] + length [1; 0; 1]))
    ∧ is_first_argmax (c_fit <$> cands) best
    ∧ cands !! best = Some cb
    ∧ one_plus_lambda_step (1 # 10) onemax 3 0 (2%positive, [Fin 0]) example_state
      = Ok (if fit_geb (c_fit cb) NegInf then c_loc cb else 2%positive,
            <[0%nat := if fit_geb (c_fit cb) NegInf then c_fit cb else NegInf]> [Fin 0]) s'.
Proof.
  apply (one_plus_lambda_generation (1 # 10) onemax 3 0 [Fin 0] example_state
           2%positive 1%positive [1; 0; 1] NegInf).
  - lia.
  - split; reflexivity.
Defined.

(** C10. In a generation of [one_plus_lambda] the population starts with
    the expert, whose fitness the generation does not change, so the best
    candidate's fitness is [>=] the expert's: the comparison that guards
    the replacement is true, and the expert is rebound to the best
    candidate.  A whole run returns a non-decreasing trace. *)
Theorem one_plus_lambda_guard_true_trace_non_decreasing
    (default_rate : Q) (objective : objective_fn) (lambda : Z) (i : nat)
    (fits0 : list Fitness) (s : state) (expert g : loc) (xs : list Z) (f : Fitness)
    (ind_length num_generations : Z) (s0 : state) :
  is_ind (heap s) expert g xs f →
  0 ≤ ind_length → 0 ≤ num_generations →
  (∃ cands best cb s',
      for_each (seq 1 (Z.to_nat (lambda - 1)))
        (offspring_step default_rate expert objective) ([expert], 0%nat) s
        = Ok (c_loc <$> cands, best) s'
      ∧ cands !! 0%nat = Some (mkCand expert g xs f)
      ∧ is_ind (heap s') expert g xs f
      ∧ cands !! best = Some cb
      ∧ get_fitness (c_loc cb) s' = Ok (c_fit cb) s'
      ∧ fit_geb (c_fit cb) f = true
      ∧ one_plus_lambda_step default_rate objective lambda i (expert, fits0) s
        = Ok (c_loc cb, <[i := c_fit cb]> fits0) s')
  ∧ (∃ fits s',
      one_plus_lambda default_rate ind_length num_generations objective lambda s0
        = Ok fits s'
      ∧ length fits = Z.to_nat num_generations
      ∧ non_decreasing fits).
Proof.
  intros Hi Hn Hgens. split.
  - destruct (one_plus_lambda_step_spec default_rate objective lambda i fits0 s
                (mkCand expert g xs f) Hi)
      as (cands & best & cb & s' & E & Hinv & Hcb & Hcbv & Hge & Estep).
    destruct Hinv as (Hlen & H0 & Hvalid & Hoff & Hargmax & Hframe & Hrng).
    simpl in *.
    exists cands, best, cb, s'.
    split; [exact E|]. split; [exact H0|].
    split; [by eapply (Forall_lookup_1 _ _ _ _ Hvalid) in H0|].
    split; [exact Hcb|].
    split; [|by split].
    destruct s' as [h' r']. eapply get_fitness_spec. apply Hcbv.
  - destruct s0 as [h r].
    destruct (one_plus_lambda_run default_rate ind_length num_generations objective
                lambda h r Hn Hgens) as (fits & s' & E & Hlen & Hsorted & _).
    by exists fits, s'.
Qed.

Lemma one_plus_lambda_guard_true_trace_non_decreasing_witness :
  (∃ cands best cb s',
      for_each (seq 1 (Z.to_nat (3 - 1)))
        (offspring_step (1 # 10) 2%positive leading_ones) ([2%positive], 0%nat) example_state
        = Ok (c_loc <$> cands, best) s'
      ∧ cands !! 0%nat = Some (mkCand 2 1 [1; 0; 1] NegInf)
      ∧ is_ind (heap s') 2 1 [1; 0; 1] NegInf
      ∧ cands !! best = Some cb
      ∧ get_fitness (c_loc cb) s' = Ok (c_fit cb) s'
      ∧ fit_geb (c_fit cb) NegInf = true
      ∧ one_plus_lambda_step (1 # 10) leading_ones 3 0 (2%positive, [Fin 0]) example_state
        = Ok (c_loc cb, <[0%nat := c_fit cb]> [Fin 0]) s')
  ∧ (∃ fits s',
      one_plus_lambda (1 # 10) 5 4 leading_ones 3 example_state = Ok fits s'
      ∧ length fits = Z.to_nat 4
      ∧ non_decreasing fits).
Proof.
  apply (one_plus_lambda_guard_true_trace_non_decreasing (1 # 10) leading_ones 3 0
           [Fin 0] example_state 2%positive 1%positive [1; 0; 1] NegInf 5 4 example_state).
  - split; reflexivity.
  - lia.
  - lia.
Defined.

(** *** [lambda <= 1]: no offspring *)

(** With [lambda <= 1] the range [range(1, lambda)] is empty: a generation
    produces nothing, draws nothing, keeps the expert and records its
    fitness. *)
Lemma one_plus_lambda_step_no_offspring default_rate objective lambda i fits s e g xs f :
  lambda ≤ 1 → is_ind (heap s) e g xs f →
  one_plus_lambda_step default_rate objective lambda i (e, fits) s
    = Ok (e, <[i := f]> fits) s.
Proof.
  intros Hl [He Hg]. destruct s as [h r]. simpl in *.
  unfold one_plus_lambda_step.
  replace (Z.to_nat (lambda - 1)) with 0%nat by lia. simpl seq. simpl for_each.
  erewrite bind_Ok by reflexivity. cbv beta iota zeta.
  change ([e] !! 0%nat) with (Some e). cbv beta iota.
  erewrite bind_Ok by (by eapply get_fitness_spec).
  erewrite bind_Ok by (by eapply get_fitness_spec).
  assert (fit_geb f f = true) as -> by apply fit_le_refl.
  erewrite bind_Ok by (by eapply get_fitness_spec).
  done.
Qed.

(** A loop whose every step only records [f] at its index fills the trace
    with [f] and leaves the state alone. *)
Lemma constant_loop (step : nat → loc * list Fitness → M (loc * list Fitness)) p f s :
  (∀ i fits, step i (p, fits) s = Ok (p, <[i := f]> fits) s) →
  ∀ fits0,
    for_each (seq 0 (length fits0)) step (p, fits0) s
      = Ok (p, replicate (length fits0) f) s.
Proof.
  intros Hstep fits0.
  set (I := λ (k : nat) (st : loc * list Fitness) (s' : state),
         s' = s ∧ st.1 = p ∧ length st.2 = length fits0
         ∧ ∀ j, (j < k)%nat → st.2 !! j = Some f).
  destruct (for_each_invariant (seq 0 (length fits0)) step I)
    with (acc := (p, fits0)) (s := s)
    as ([p' fits] & s' & E & -> & Hp & Hlen & Hall).
  - intros k x [q fits] s1 Hx (-> & Hq & Hlen & Hall). simpl in *. subst q.
    apply lookup_seq in Hx as [-> Hk]. simpl.
    exists (p, <[k := f]> fits), s. split; [apply Hstep|].
    split; [done|]. split; [done|]. simpl. split; [by rewrite length_insert|].
    intros j Hj. destruct (decide (j = k)) as [->|Hne].
    + by rewrite list_lookup_insert_eq by lia.
    + rewrite list_lookup_insert_ne by done. apply Hall. lia.
  - split; [done|]. split; [done|]. split; [done|]. intros j Hj. lia.
  - simpl in *. subst p'. rewrite E. do 2 f_equal.
    rewrite length_seq in Hall.
    apply list_eq. intros j. destruct (decide (j < length fits0)%nat) as [Hj|Hj].
    + rewrite (Hall j Hj). symmetry. by apply lookup_replicate_2.
    + rewrite !lookup_ge_None_2; [done|rewrite length_replicate; lia|lia].
Qed.

(** A run with [lambda <= 1]: the initial expert is created and evaluated,
    nothing else happens to the state, and the trace repeats its fitness. *)
Lemma one_plus_lambda_no_offspring default_rate ind_length num_generations
    objective lambda h r :
  lambda ≤ 1 → 0 ≤ ind_length → 0 ≤ num_generations →
  let bits := drawn_bits r (Z.to_nat ind_length) in
  let f0 := objective {| genes := bits; fitness := NegInf |} in
  one_plus_lambda default_rate ind_length num_generations objective lambda (mkState h r)
    = Ok (replicate (Z.to_nat num_generations) f0)
         (mkState (<[loc_Individual h bits := OInd (fresh_loc h) f0]> (heap_Individual h bits))
                  (advance r (Z.to_nat ind_length))).
Proof.
  intros Hl Hn Hgens bits f0.
  destruct (Individual_evaluate_spec ind_length objective h r Hn) as [E0 Hi0].
  apply bind_inv_Ok in E0 as (l0 & s0 & EI & E0).
  apply bind_inv_Ok in E0 as (o & s1 & EE & E0).
  injection E0 as -> ->. fold bits f0 in Hi0.
  unfold one_plus_lambda.
  erewrite bind_Ok by (by apply np_zeros_spec).
  erewrite bind_Ok by exact EI.
  erewrite bind_Ok by exact EE.
  erewrite bind_Ok.
  2:{ apply (constant_loop _ _ f0). intros i fits.
      by eapply one_plus_lambda_step_no_offspring. }
  simpl. by rewrite length_replicate.
Qed.

(** *** [one_plus_lambda] with [lambda = 1] against [one_plus_one] *)

(** A run of [one_plus_one] with one gene and one generation. *)
Lemma one_plus_one_1_1 default_rate objective h r :
  let bits := [draw_bit r 0] in
  let f0 := objective {| genes := bits; fitness := NegInf |} in
  let cf := objective {| genes := mutated default_rate (advance r 1) bits;
                         fitness := NegInf |} in
  ∃ s', one_plus_one default_rate 1 1 objective (mkState h r)
        = Ok [if fit_geb cf f0 then cf else f0] s'.
Proof.
  intros bits f0 cf.
  destruct (Individual_evaluate_spec 1 objective h r) as [E0 Hi0]; [lia|].
  apply bind_inv_Ok in E0 as (l0 & s0 & EI & E0).
  apply bind_inv_Ok in E0 as (o & s1 & EE & E0).
  injection E0 as -> ->.
  change (drawn_bits r (Z.to_nat 1)) with bits in Hi0. fold f0 in Hi0.
  destruct (one_plus_one_step_spec default_rate objective 0 _ [Fin 0] _
              (advance r (Z.to_nat 1)) _ _ _ Hi0) as (Estep & _ & _).
  eexists. unfold one_plus_one.
  erewrite bind_Ok by (apply np_zeros_spec; lia).
  erewrite bind_Ok by exact EI.
  erewrite bind_Ok by exact EE.
  change (seq 0 (length (replicate (Z.to_nat 1) (Fin 0)))) with [0%nat].
  change (replicate (Z.to_nat 1) (Fin 0)) with [Fin 0].
  simpl for_each.
  erewrite bind_Ok.
  2:{ erewrite bind_Ok by exact Estep. reflexivity. }
  reflexivity.
Qed.

(** The two runs for length 1, one generation and [onemax]: from every
    state both return a one-element trace, the one of [one_plus_lambda]
    with [lambda = 1] is never above the one of [one_plus_one], and when
    the first bit drawn is 0 and the following draw of [rand()] is below
    the rate, they are 0 and 1. *)
Lemma one_plus_one_vs_lambda_1_onemax default_rate s :
  ∃ x y s1 s2,
    one_plus_one default_rate 1 1 onemax s = Ok [Fin y] s1
    ∧ one_plus_lambda default_rate 1 1 onemax 1 s = Ok [Fin x] s2
    ∧ x ≤ y
    ∧ (draw_bit (rng s) 0 = 0 → (draw_unit (rng s) 1 < default_rate)%Q →
       x = 0 ∧ y = 1).
Proof.
  destruct s as [h r]. simpl.
  destruct (one_plus_one_1_1 default_rate onemax h r) as [s1 E1].
  rewrite E1, one_plus_lambda_no_offspring by lia.
  change (drawn_bits r (Z.to_nat 1)) with [draw_bit r 0].
  unfold mutated. simpl imap. rewrite draw_unit_advance. simpl Nat.add.
  unfold onemax. simpl foldr. simpl replicate.
  set (b := draw_bit r 0). set (u := Qltb (draw_unit r 1) default_rate).
  set (c := (if u then py_not b else b) + 0).
  destruct (fit_geb (Fin c) (Fin (b + 0))) eqn:Hge.
  - eexists _, _, _, _. split; [reflexivity|]. split; [reflexivity|].
    unfold fit_geb in Hge; simpl in Hge. apply Z.leb_le in Hge.
    split; [exact Hge|].
    intros Hb Hu. apply Qltb_true in Hu. unfold c, u. rewrite Hu, Hb. done.
  - eexists _, _, _, _. split; [reflexivity|]. split; [reflexivity|].
    split; [lia|].
    intros Hb Hu. apply Qltb_true in Hu. unfold c, u in Hge.
    rewrite Hu, Hb in Hge. discriminate Hge.
Qed.

(** C2 as the spec words it fails, for length 1, one generation and
    [onemax], with the default rate 1/10 of the notebook.  On the generator
    [zero_state] the two runs return different traces.  More generally, on
    every generator whose first bit is 0 and whose following draw of
    [rand()] is below 1/10, [one_plus_one] returns [[1]] and
    [one_plus_lambda] with [lambda = 1] returns [[0]], while on no
    generator is the latter above the former; so over every finite sample
    of generators that contains such a one, the mean trace of
    [one_plus_lambda] with [lambda = 1] is strictly below the mean trace of
    [one_plus_one].  With uniform draws that event has probability about
    1/20: the expected traces differ. *)
Lemma one_plus_lambda_1_is_not_one_plus_one :
  (∃ s1 s2,
      one_plus_one (1 # 10) 1 1 onemax zero_state = Ok [Fin 1] s1
      ∧ one_plus_lambda (1 # 10) 1 1 onemax 1 zero_state = Ok [Fin 0] s2)
  ∧ (∀ s, draw_bit (rng s) 0 = 0 → (draw_unit (rng s) 1 < 1 # 10)%Q →
       ∃ s1 s2,
         one_plus_one (1 # 10) 1 1 onemax s = Ok [Fin 1] s1
         ∧ one_plus_lambda (1 # 10) 1 1 onemax 1 s = Ok [Fin 0] s2)
  ∧ (∀ s, ∃ a b s1 s2,
         one_plus_one (1 # 10) 1 1 onemax s = Ok [a] s1
         ∧ one_plus_lambda (1 # 10) 1 1 onemax 1 s = Ok [b] s2
         ∧ fit_le b a)
  ∧ (∀ samples s,
       s ∈ samples → draw_bit (rng s) 0 = 0 → (draw_unit (rng s) 1 < 1 # 10)%Q →
       sample_total (one_plus_lambda (1 # 10) 1 1 onemax 1) samples
       < sample_total (one_plus_one (1 # 10) 1 1 onemax) samples).
Proof.
  split; [|split; [|split]].
  - eexists _, _. split; vm_compute; reflexivity.
  - intros s Hbit Hunit.
    destruct (one_plus_one_vs_lambda_1_onemax (1 # 10) s)
      as (x & y & s1 & s2 & E1 & E2 & _ & Hev).
    destruct (Hev Hbit Hunit) as [-> ->]. by exists s1, s2.
  - intros s.
    destruct (one_plus_one_vs_lambda_1_onemax (1 # 10) s)
      as (x & y & s1 & s2 & E1 & E2 & Hle & _).
    exists (Fin y), (Fin x), s1, s2. split; [done|]. split; [done|].
    unfold fit_le; simpl. by apply Z.leb_le.
  - assert (∀ samples,
              sample_total (one_plus_lambda (1 # 10) 1 1 onemax 1) samples
              ≤ sample_total (one_plus_one (1 # 10) 1 1 onemax) samples) as Hle.
    { induction samples as [|t samples IH]; simpl; [done|].
      destruct (one_plus_one_vs_lambda_1_onemax (1 # 10) t)
        as (x & y & s1 & s2 & E1 & E2 & Hxy & _).
      rewrite E1, E2. simpl. lia. }
    induction samples as [|t samples IH]; intros s Hin Hbit Hunit.
    + by apply elem_of_nil in Hin.
    + simpl. apply elem_of_cons in Hin as [->|Hin].
      * destruct (one_plus_one_vs_lambda_1_onemax (1 # 10) t)
          as (x & y & s1 & s2 & E1 & E2 & _ & Hev).
        destruct (Hev Hbit Hunit) as [-> ->].
        rewrite E1, E2. simpl. specialize (Hle samples). lia.
      * destruct (one_plus_one_vs_lambda_1_onemax (1 # 10) t)
          as (x & y & s1 & s2 & E1 & E2 & Hxy & _).
        rewrite E1, E2. simpl. specialize (IH s Hin Hbit Hunit). lia.
Qed.

(** C2, as the code has it.  With [lambda = 1] a run of [one_plus_lambda]
    creates and evaluates the initial expert and does nothing more: no
    offspring is allocated and no further word is drawn (the final state
    is the one right after the expert's evaluation), and the trace repeats
    the expert's fitness.  [one_plus_one] from the same state starts with
    the same individual and its trace is nowhere below that fitness. *)
Theorem one_plus_lambda_1_keeps_initial_expert
    (default_rate : Q) (ind_length num_generations : Z) (objective : objective_fn)
    (s : state) :
  0 ≤ ind_length → 0 ≤ num_generations →
  let f0 := objective {| genes := drawn_bits (rng s) (Z.to_nat ind_length);
                         fitness := NegInf |} in
  ∃ expert s1,
    (Individual ind_length ≫= λ l, evaluate l objective ≫= λ _, mret l) s = Ok expert s1
    ∧ get_fitness expert s1 = Ok f0 s1
    ∧ one_plus_lambda default_rate ind_length num_generations objective 1 s
      = Ok (replicate (Z.to_nat num_generations) f0) s1
    ∧ ∃ fits s2,
        one_plus_one default_rate ind_length num_generations objective s = Ok fits s2
        ∧ length fits = Z.to_nat num_generations
        ∧ (∀ j a, fits !! j = Some a → fit_le f0 a).
Proof.
  destruct s as [h r]. intros Hn Hgens f0. simpl in f0.
  destruct (Individual_evaluate_spec ind_length objective h r Hn) as [E0 Hi0].
  eexists _, _. split; [exact E0|].
  split; [eapply get_fitness_spec; apply Hi0|].
  split; [by apply one_plus_lambda_no_offspring|].
  destruct (one_plus_one_run default_rate ind_length num_generations objective h r Hn Hgens)
    as (fits & s2 & E & Hlen & _ & Hbound).
  by exists fits, s2.
Qed.

Lemma one_plus_lambda_1_keeps_initial_expert_witness :
  let f0 := onemax {| genes := drawn_bits (rng example_state) (Z.to_nat 3);
                      fitness := NegInf |} in
  ∃ expert s1,
    (Individual 3 ≫= λ l, evaluate l onemax ≫= λ _, mret l) example_state = Ok expert s1
    ∧ get_fitness expert s1 = Ok f0 s1
    ∧ one_plus_lambda (1 # 10) 3 4 onemax 1 example_state
      = Ok (replicate (Z.to_nat 4) f0) s1
    ∧ ∃ fits s2,
        one_plus_one (1 # 10) 3 4 onemax example_state = Ok fits s2
        ∧ length fits = Z.to_nat 4
        ∧ (∀ j a, fits !! j = Some a → fit_le f0 a).
Proof.
  apply (one_plus_lambda_1_keeps_initial_expert (1 # 10) 3 4 onemax example_state); lia.
Defined.

(** ** Arguments are not validated *)

Lemma one_plus_lambda_step_lambda_le_1 default_rate objective lambda :
  lambda ≤ 1 →
  one_plus_lambda_step default_rate objective lambda
  = one_plus_lambda_step default_rate objective 1.
Proof.
  intros Hl. unfold one_plus_lambda_step.
  by replace (Z.to_nat (lambda - 1)) with (Z.to_nat (1 - 1)) by lia.
Qed.

(** C7 as the spec words it fails: a genome length of 0, a mutation rate
    of 2 or of -1, and [lambda = 0] are all accepted; each call returns. *)
Lemma arguments_accepted_counterexample :
  (∃ l s', Individual 0 example_state = Ok l s'
           ∧ heap s' !! l = Some (OInd 3 NegInf)
           ∧ heap s' !! 3%positive = Some (ndarray []))
  ∧ (∃ c s', mutate (1 # 10) 2%positive (Some (2 # 1)) example_state = Ok c s')
  ∧ (∃ c s', mutate (1 # 10) 2%positive (Some (-1 # 1)) example_state = Ok c s')
  ∧ (∃ fits s', one_plus_lambda (1 # 10) 3 2 onemax 0 example_state = Ok fits s').
Proof.
  split; [|split; [|split]].
  - eexists _, _. split; [vm_compute; reflexivity|]. split; reflexivity.
  - eexists _, _. vm_compute; reflexivity.
  - eexists _, _. vm_compute; reflexivity.
  - eexists _, _. vm_compute; reflexivity.
Qed.

(** C7, as the code has it.  Nothing checks an argument, in any state.
    A negative genome length makes numpy raise at the creation of the
    individual, before any generation; length 0 gives an individual with an
    empty genome.  [mutate] takes any rate: below 0 it copies the parent's
    genes, above 1 it negates every gene.  [one_plus_lambda] takes any
    [lambda]: below 1 it runs as with [lambda = 1], and returns. *)
Theorem arguments_not_validated
    (default_rate : Q) (objective : objective_fn) (s : state) :
  (∀ negative_length, negative_length < 0 →
     Individual negative_length s = Raise ValueError)
  ∧ (∀ negative_length num_generations lambda,
       negative_length < 0 → 0 ≤ num_generations →
       one_plus_one default_rate negative_length num_generations objective s
         = Raise ValueError
       ∧ one_plus_lambda default_rate negative_length num_generations objective lambda s
         = Raise ValueError)
  ∧ (∃ l a s', Individual 0 s = Ok l s' ∧ is_ind (heap s') l a [] NegInf)
  ∧ (∀ parent g xs f rate_below,
       is_ind (heap s) parent g xs f → (rate_below < 0)%Q →
       ∃ child a s',
         mutate default_rate parent (Some rate_below) s = Ok child s'
         ∧ is_ind (heap s') child a xs NegInf)
  ∧ (∀ parent g xs f rate_above,
       is_ind (heap s) parent g xs f → (1 < rate_above)%Q →
       ∃ child a s',
         mutate default_rate parent (Some rate_above) s = Ok child s'
         ∧ is_ind (heap s') child a (py_not <$> xs) NegInf)
  ∧ (∀ ind_length num_generations lambda,
       lambda < 1 →
       one_plus_lambda default_rate ind_length num_generations objective lambda s
       = one_plus_lambda default_rate ind_length num_generations objective 1 s)
  ∧ (∀ ind_length num_generations lambda,
       lambda < 1 → 0 ≤ ind_length → 0 ≤ num_generations →
       ∃ fits s',
         one_plus_lambda default_rate ind_length num_generations objective lambda s
         = Ok fits s').
Proof.
  destruct s as [h r]. simpl.
  split; [|split; [|split; [|split; [|split; [|split]]]]].
  - intros n Hneg. by apply Individual_negative.
  - intros n gens lambda Hneg Hgens. split.
    + unfold one_plus_one.
      erewrite bind_Ok by (by apply np_zeros_spec).
      erewrite bind_Raise; [done|by apply Individual_negative].
    + unfold one_plus_lambda.
      erewrite bind_Ok by (by apply np_zeros_spec).
      erewrite bind_Raise; [done|by apply Individual_negative].
  - eexists _, _, _. split; [by apply Individual_spec|]. simpl.
    apply (heap_Individual_is_ind h []).
  - intros parent g xs f rate Hi Hlo.
    eexists _, _, _. split; [by eapply mutate_spec|]. simpl.
    rewrite mutated_rate_le_0 by (by apply Qlt_le_weak). apply heap_mutate_child.
  - intros parent g xs f rate Hi Hhi.
    eexists _, _, _. split; [by eapply mutate_spec|]. simpl.
    rewrite mutated_rate_ge_1 by (by apply Qlt_le_weak). apply heap_mutate_child.
  - intros n gens lambda Hl. unfold one_plus_lambda.
    by rewrite one_plus_lambda_step_lambda_le_1 by lia.
  - intros n gens lambda Hl Hn Hgens.
    eexists _, _. apply one_plus_lambda_no_offspring; lia.
Qed.

(** The same on the empty store, which holds no individual, and on the
    store of the examples for [mutate]. *)
Lemma arguments_not_validated_witness :
  (Individual (-1) zero_state = Raise ValueError
   ∧ one_plus_one (1 # 10) (-1) 4 onemax zero_state = Raise ValueError
   ∧ one_plus_lambda (1 # 10) (-1) 4 onemax 0 zero_state = Raise ValueError)
  ∧ (∃ l a s', Individual 0 zero_state = Ok l s' ∧ is_ind (heap s') l a [] NegInf)
  ∧ (∃ child a s',
        mutate (1 # 10) 2%positive (Some (-1 # 2)%Q) example_state = Ok child s'
        ∧ is_ind (heap s') child a [1; 0; 1] NegInf)
  ∧ (∃ child a s',
        mutate (1 # 10) 2%positive (Some (3 # 2)%Q) example_state = Ok child s'
        ∧ is_ind (heap s') child a (py_not <$> [1; 0; 1]) NegInf)
  ∧ (one_plus_lambda (1 # 10) 3 4 onemax 0 zero_state
     = one_plus_lambda (1 # 10) 3 4 onemax 1 zero_state
     ∧ ∃ fits s', one_plus_lambda (1 # 10) 3 4 onemax 0 zero_state = Ok fits s').
Proof.
  destruct (arguments_not_validated (1 # 10) onemax zero_state)
    as (H1 & H2 & H3 & _ & _ & H6 & H7).
  destruct (arguments_not_validated (1 # 10) onemax example_state)
    as (_ & _ & _ & H4 & H5 & _ & _).
  split; [|split; [|split; [|split]]].
  - split; [apply H1; lia|]. apply H2; lia.
  - exact H3.
  - apply (H4 2%positive 1%positive [1; 0; 1] NegInf); [split|]; reflexivity.
  - apply (H5 2%positive 1%positive [1; 0; 1] NegInf); [split|]; reflexivity.
  - split; [apply H6; lia | apply H7; lia].
Defined.

(** ** The default mutation rate *)

Lemma mutate_default_spec h r l g xs f :
  is_ind h l g xs f → xs ≠ [] →
  mutate_default l (mkState h r) = Ok (1 # Pos.of_nat (length xs)) (mkState h r).
Proof.
  intros [Hl Hg] Hne. unfold mutate_default.
  erewrite bind_Ok by (by eapply get_genes_spec).
  erewrite bind_Ok by (by eapply read_array_spec).
  destruct (decide (length xs = 0%nat)) as [E|_]; [|done].
  by destruct xs.
Qed.

(** C9, where the code departs from it.  Whatever the generator, the
    notebook binds the default of [mutation_rate] to 1/10, the reciprocal
    of the length of the global [ind]; the individual that cell 23 then
    mutates, [parent], has 20 genes, and [mutate(parent)] behaves as
    [mutate(parent, 1/10)], which is not the rate 1/20. *)
Theorem mutate_default_rate_is_one_tenth (s : state) :
  ∃ parent g xs f s',
    notebook_until_mutate s = Ok (parent, 1 # 10) s'
    ∧ is_ind (heap s') parent g xs f
    ∧ length xs = 20%nat
    ∧ mutate (1 # 10) parent None s' = mutate (1 # 10) parent (Some (1 # 10)) s'
    ∧ ¬ (1 # 10 == 1 # Pos.of_nat (length xs))%Q.
Proof.
  destruct s as [h r]. unfold notebook_until_mutate.
  erewrite bind_Ok by (apply Individual_spec; lia).
  set (bits := drawn_bits r (Z.to_nat 10)).
  set (ind := loc_Individual h bits).
  set (gi := fresh_loc h).
  pose proof (heap_Individual_is_ind h bits) as Hi. fold ind gi in Hi.
  pose proof (is_ind_ne _ _ _ _ _ Hi) as Hne.
  erewrite bind_Ok by (by eapply snapshot_spec).
  erewrite bind_Ok by (eapply set_fitness_spec; apply Hi).
  set (f1 := onemax {| genes := bits; fitness := NegInf |}).
  set (h1 := <[ind := OInd gi f1]> (heap_Individual h bits)).
  assert (is_ind h1 ind gi bits f1) as Hi1.
  { destruct Hi as [H1 H2]. unfold h1.
    split; [by rewrite lookup_insert_eq | by rewrite lookup_insert_ne]. }
  erewrite bind_Ok by (by eapply evaluate_spec).
  set (f2 := onemax {| genes := bits; fitness := f1 |}).
  set (h2 := <[ind := OInd gi f2]> h1).
  assert (is_ind h2 ind gi bits f2) as Hi2.
  { destruct Hi1 as [H1 H2]. unfold h2.
    split; [by rewrite lookup_insert_eq | by rewrite lookup_insert_ne]. }
  erewrite bind_Ok by (apply Individual_spec; lia).
  set (r1 := advance r (Z.to_nat 10)).
  set (pbits := drawn_bits r1 (Z.to_nat 20)).
  set (parent := loc_Individual h2 pbits).
  pose proof (heap_Individual_is_ind h2 pbits) as Hp. fold parent in Hp.
  pose proof (is_ind_ne _ _ _ _ _ Hp) as Hpne.
  erewrite bind_Ok by (by eapply evaluate_spec).
  set (fp := onemax {| genes := pbits; fitness := NegInf |}).
  set (h3 := <[parent := OInd (fresh_loc h2) fp]> (heap_Individual h2 pbits)).
  assert (is_ind h3 parent (fresh_loc h2) pbits fp) as Hp3.
  { destruct Hp as [H1 H2]. unfold h3.
    split; [by rewrite lookup_insert_eq | by rewrite lookup_insert_ne]. }
  assert (is_ind h3 ind gi bits f2) as Hi3.
  { pose proof (loc_Individual_None h2 pbits) as HN. fold parent in HN.
    destruct Hi2 as [H1 H2]. unfold h3.
    apply is_ind_insert_other; [|intros ->; congruence..].
    split; by apply heap_Individual_frame. }
  erewrite bind_Ok.
  2:{ eapply mutate_default_spec; [exact Hi3|].
      intros E. apply (f_equal length) in E. unfold bits in E.
      rewrite length_drawn_bits in E. done. }
  unfold bits. rewrite length_drawn_bits.
  exists parent, (fresh_loc h2), pbits, fp, (mkState h3 (advance r1 (Z.to_nat 20))).
  split; [reflexivity|]. split; [exact Hp3|].
  split; [unfold pbits; by rewrite length_drawn_bits|].
  split; [reflexivity|].
  unfold pbits. rewrite length_drawn_bits. intros E. discriminate E.
Qed.

(** On a parent of three genes, a draw of 1/8 flips nothing under the
    default 1/10 that the notebook binds, and would flip every gene under
    the rate 1/3 of the parent's own length. *)
Example mutate_default_ignores_parent_length :
  ∃ s1 s2,
    mutate (1 # 10) 2%positive None eighth_state = Ok 5%positive s1
    ∧ heap s1 !! 3%positive = Some (ndarray [1; 0; 1])
    ∧ mutate (1 # 10) 2%positive (Some (1 # 3)) eighth_state = Ok 5%positive s2
    ∧ heap s2 !! 3%positive = Some (ndarray [0; 1; 0]).
Proof. eexists _, _. repeat split. Qed.

(** ** Further properties of the notebook's functions *)

(** *** [Individual] *)

Lemma heap_Individual_extends h bits : h ⊆ heap_Individual h bits.
Proof. apply map_subseteq_spec. intros l o. apply heap_Individual_frame. Qed.

Lemma heap_mutate_extends h new_genes bits : h ⊆ heap_mutate h new_genes bits.
Proof. apply map_subseteq_spec. intros l o. apply heap_mutate_frame. Qed.

Lemma drawn_bits_bit_genome r n : bit_genome n (drawn_bits r n).
Proof. split; [apply length_drawn_bits | apply drawn_bits_bits]. Qed.

(** X1. For [n >= 0], [Individual(n)] returns a new object whose gene
    array is new as well and holds exactly [n] genes, each 0 or 1; its
    fitness is [-inf]; every object that existed is unchanged; exactly [n]
    words of the generator are consumed. *)
Theorem Individual_new_bit_genome (n : Z) (s : state) :
  0 ≤ n →
  ∃ l g xs s',
    Individual n s = Ok l s'
    ∧ heap s !! l = None ∧ heap s !! g = None
    ∧ is_ind (heap s') l g xs NegInf
    ∧ bit_genome (Z.to_nat n) xs
    ∧ heap s ⊆ heap s'
    ∧ rng s' = advance (rng s) (Z.to_nat n).
Proof.
  destruct s as [h r]; simpl. intros Hn.
  eexists _, _, _, _. split; [by apply Individual_spec|]. simpl.
  split; [apply loc_Individual_None|].
  split; [apply fresh_loc_None|].
  split; [apply heap_Individual_is_ind|].
  split; [apply drawn_bits_bit_genome|].
  split; [apply heap_Individual_extends | done].
Qed.

Lemma Individual_new_bit_genome_witness :
  ∃ l g xs s',
    Individual 4 example_state = Ok l s'
    ∧ heap example_state !! l = None ∧ heap example_state !! g = None
    ∧ is_ind (heap s') l g xs NegInf
    ∧ bit_genome (Z.to_nat 4) xs
    ∧ heap example_state ⊆ heap s'
    ∧ rng s' = advance (rng example_state) (Z.to_nat 4).
Proof. apply (Individual_new_bit_genome 4 example_state). lia. Defined.

(** *** [onemax] *)

Lemma sum_bits_range xs :
  Forall is_bit xs →
  0 ≤ foldr Z.add 0 xs ≤ Z.of_nat (length xs)
  ∧ (foldr Z.add 0 xs = Z.of_nat (length xs) ↔ xs = replicate (length xs) 1)
  ∧ (foldr Z.add 0 xs = 0 ↔ xs = replicate (length xs) 0).
Proof.
  induction 1 as [|x xs Hx Hxs IH]; simpl.
  - split; [lia|]. split; done.
  - destruct IH as (Hrange & Hall1 & Hall0).
    split; [destruct Hx as [-> | ->]; lia|].
    split.
    + split.
      * intros E. destruct Hx as [-> | ->]; [lia|].
        f_equal. apply Hall1. lia.
      * intros E. injection E as -> E. apply Hall1 in E. lia.
    + split.
      * intros E. destruct Hx as [-> | ->]; [|lia].
        f_equal. apply Hall0. lia.
      * intros E. injection E as -> E. apply Hall0 in E. lia.
Qed.

(** X2. On a genome of bits, [onemax] is a number between 0 and the
    length; it is the length exactly on the all-ones genome and 0 exactly
    on the all-zeros genome. *)
Theorem onemax_bits_range_optimum (i : individual) :
  Forall is_bit (genes i) →
  ∃ k, onemax i = Fin k
       ∧ 0 ≤ k ≤ Z.of_nat (length (genes i))
       ∧ (k = Z.of_nat (length (genes i)) ↔ genes i = replicate (length (genes i)) 1)
       ∧ (k = 0 ↔ genes i = replicate (length (genes i)) 0).
Proof.
  intros Hbits. exists (foldr Z.add 0 (genes i)). split; [done|].
  by apply sum_bits_range.
Qed.

Lemma onemax_bits_range_optimum_witness :
  ∃ k, onemax {| genes := [1; 0; 1]; fitness := NegInf |} = Fin k
       ∧ 0 ≤ k ≤ Z.of_nat (length [1; 0; 1])
       ∧ (k = Z.of_nat (length [1; 0; 1]) ↔ [1; 0; 1] = replicate (length [1; 0; 1]) 1)
       ∧ (k = 0 ↔ [1; 0; 1] = replicate (length [1; 0; 1]) 0).
Proof.
  apply (onemax_bits_range_optimum {| genes := [1; 0; 1]; fitness := NegInf |}).
  simpl. repeat (constructor; [unfold is_bit; lia|]). constructor.
Defined.

(** *** [leading_ones] *)

(** What the loop of [leading_ones] can return: the initial [f], or an
    index of its range at which the genome holds a zero. *)
Lemma leading_ones_loop_result gs f m k :
  leading_ones_loop gs (seq k m) f = f
  ∨ ∃ i, leading_ones_loop gs (seq k m) f = Z.of_nat i
         ∧ (k ≤ i < k + m)%nat ∧ gs !! i = Some 0.
Proof.
  revert k. induction m as [|m IH]; intros k; simpl; [by left|].
  destruct (gs !! k) as [x|] eqn:Hx; [|by left].
  destruct (decide (x = 0)) as [->|_].
  - right. exists k. split; [done|]. split; [lia|done].
  - destruct (IH (S k)) as [E | (i & E & Hi & Hz)]; [by left|].
    right. exists i. split; [done|]. split; [lia|done].
Qed.

(** X3. Whatever the genome, [leading_ones] returns a number that is at
    least 0 and, unless the genome is empty, below the length: the value
    [len(genes)], the optimum of the Leading Ones problem, is returned for
    no genome of positive length. *)
Theorem leading_ones_below_length (i : individual) :
  ∃ k, leading_ones i = Fin k
       ∧ 0 ≤ k
       ∧ (k < Z.of_nat (length (genes i)) ∨ genes i = []).
Proof.
  unfold leading_ones.
  destruct (leading_ones_loop_result (genes i) 0 (length (genes i)) 0)
    as [E | (j & E & Hj & Hz)].
  - exists 0. rewrite E. split; [done|]. split; [lia|].
    destruct (genes i); [by right | left; simpl; lia].
  - exists (Z.of_nat j). rewrite E. split; [done|]. split; [lia|]. left. lia.
Qed.

(** *** [mutate] *)

Lemma py_not_is_bit x : is_bit (py_not x).
Proof. unfold py_not, is_bit. destruct (decide (x = 0)); lia. Qed.

(** [mutate] keeps a genome of [n] bits a genome of [n] bits. *)
Lemma mutated_bit_genome rate r n xs : bit_genome n xs → bit_genome n (mutated rate r xs).
Proof.
  intros [Hlen Hbits]. split; [by rewrite length_mutated|].
  apply Forall_lookup. intros k y Hy.
  destruct (xs !! k) as [x|] eqn:Hx.
  - rewrite (lookup_mutated _ _ _ _ _ Hx) in Hy. injection Hy as <-.
    destruct (Qltb (draw_unit r k) rate); [apply py_not_is_bit|].
    by eapply (Forall_lookup_1 _ _ _ _ Hbits).
  - apply lookup_lt_Some in Hy. rewrite length_mutated in Hy.
    apply lookup_ge_None in Hx. lia.
Qed.

(** X4. On a parent with a genome of bits, mutating with rate 1 and
    mutating the child with rate 1 again gives a grandchild with the
    parent's genome; the parent is still as it was, and the grandchild is
    another object. *)
Theorem mutate_rate_1_twice_restores_genome
    (default_rate : Q) (s : state) (parent g : loc) (xs : list Z) (f : Fitness) :
  is_ind (heap s) parent g xs f →
  Forall is_bit xs →
  ∃ child s1 grandchild a s2,
    mutate default_rate parent (Some 1%Q) s = Ok child s1
    ∧ mutate default_rate child (Some 1%Q) s1 = Ok grandchild s2
    ∧ is_ind (heap s2) grandchild a xs NegInf
    ∧ is_ind (heap s2) parent g xs f
    ∧ grandchild ≠ parent ∧ grandchild ≠ child.
Proof.
  destruct s as [h r]; simpl. intros Hi Hbits.
  pose proof (mutate_spec default_rate (Some 1%Q) h r parent g xs f Hi) as E1.
  simpl in E1. rewrite mutated_rate_ge_1 in E1 by apply Qle_refl.
  set (bits1 := drawn_bits (advance r (length xs)) (length xs)) in *.
  set (h1 := heap_mutate h (py_not <$> xs) bits1) in *.
  set (c1 := loc_mutate h (py_not <$> xs) bits1) in *.
  pose proof (heap_mutate_child h (py_not <$> xs) bits1) as Hc1. fold h1 c1 in Hc1.
  pose proof (mutate_spec default_rate (Some 1%Q) h1
                (advance r (length xs + length xs)) c1 _ _ _ Hc1) as E2.
  simpl in E2. rewrite mutated_rate_ge_1 in E2 by apply Qle_refl.
  assert (py_not <$> (py_not <$> xs) = xs) as Hinv.
  { rewrite <- list_fmap_compose. rewrite <- (list_fmap_id xs) at 2.
    apply Forall_fmap_ext_1. eapply Forall_impl; [done|].
    intros x Hx. simpl. by apply py_not_bit. }
  rewrite Hinv in E2.
  eexists _, _, _, _, _. split; [exact E1|]. split; [exact E2|]. simpl.
  split; [apply heap_mutate_child|].
  split; [apply is_ind_heap_mutate; by apply is_ind_heap_mutate|].
  match goal with |- ?gc ≠ _ ∧ _ =>
    assert (h1 !! gc = None) as HN by apply loc_mutate_None end.
  split; intros E; rewrite E in HN.
  - destruct (is_ind_heap_mutate h (py_not <$> xs) bits1 _ _ _ _ Hi) as [H1 _].
    fold h1 in H1. congruence.
  - destruct Hc1 as [H1 _]. congruence.
Qed.

Lemma mutate_rate_1_twice_restores_genome_witness :
  ∃ child s1 grandchild a s2,
    mutate (1 # 10) 2%positive (Some 1%Q) example_state = Ok child s1
    ∧ mutate (1 # 10) child (Some 1%Q) s1 = Ok grandchild s2
    ∧ is_ind (heap s2) grandchild a [1; 0; 1] NegInf
    ∧ is_ind (heap s2) 2%positive 1%positive [1; 0; 1] NegInf
    ∧ grandchild ≠ 2%positive ∧ grandchild ≠ child.
Proof.
  apply (mutate_rate_1_twice_restores_genome (1 # 10) example_state
           2%positive 1%positive [1; 0; 1] NegInf).
  - split; reflexivity.
  - repeat (constructor; [unfold is_bit; lia|]). constructor.
Defined.

(** X5. What a call of [mutate] costs.  The store gains exactly three
    objects: the child, the copy that becomes the child's genes, and the
    array of [len(genes)] random bits that [Individual(len(ind.genes))]
    draws for the child before [child.genes] is rebound, which no
    attribute of the child refers to.  The generator advances by twice the
    genome length: one word per gene for [rand()], one per gene for that
    array. *)
Theorem mutate_footprint
    (default_rate : Q) (mutation_rate : option Q) (s : state)
    (parent g : loc) (xs : list Z) (f : Fitness) :
  is_ind (heap s) parent g xs f →
  ∃ child a t s',
    mutate default_rate parent mutation_rate s = Ok child s'
    ∧ dom (heap s') = {[child; a; t]} ∪ dom (heap s)
    ∧ (child ∉ dom (heap s)) ∧ (a ∉ dom (heap s)) ∧ (t ∉ dom (heap s))
    ∧ child ≠ a ∧ child ≠ t ∧ a ≠ t
    ∧ heap s' !! child = Some (OInd a NegInf)
    ∧ heap s' !! t
      = Some (ndarray (drawn_bits (advance (rng s) (length xs)) (length xs)))
    ∧ rng s' = advance (rng s) (length xs + length xs).
Proof.
  destruct s as [h r]; simpl. intros Hi.
  set (new_genes := mutated (default default_rate mutation_rate) r xs).
  set (bits := drawn_bits (advance r (length xs)) (length xs)).
  set (a := fresh_loc h).
  set (h1 := <[a := ndarray new_genes]> h).
  set (t := fresh_loc h1).
  set (h2 := <[t := ndarray bits]> h1).
  set (c := fresh_loc h2).
  assert (h !! a = None) as Ha by apply fresh_loc_None.
  assert (h1 !! t = None) as Ht by apply fresh_loc_None.
  assert (h2 !! c = None) as Hc by apply fresh_loc_None.
  unfold h1 in Ht. apply lookup_insert_None in Ht as [Ht Hat].
  unfold h2, h1 in Hc. apply lookup_insert_None in Hc as [Hc Htc].
  apply lookup_insert_None in Hc as [Hc Hac].
  exists c, a, t, (mkState (heap_mutate h new_genes bits) (advance r (length xs + length xs))).
  split; [by eapply mutate_spec|]. simpl.
  assert (heap_mutate h new_genes bits
          = <[c := OInd a NegInf]> (<[c := OInd t NegInf]> h2)) as -> by reflexivity.
  rewrite insert_insert_eq.
  split.
  { unfold h2, h1. rewrite !dom_insert_L. apply set_eq. intros x.
    rewrite !elem_of_union, !elem_of_singleton. tauto. }
  split; [by apply not_elem_of_dom|].
  split; [by apply not_elem_of_dom|].
  split; [by apply not_elem_of_dom|].
  split; [done|]. split; [done|]. split; [done|].
  split; [by rewrite lookup_insert_eq|].
  split; [|done].
  rewrite lookup_insert_ne by done. unfold h2. by rewrite lookup_insert_eq.
Qed.

Lemma mutate_footprint_witness :
  ∃ child a t s',
    mutate (1 # 10) 2%positive None example_state = Ok child s'
    ∧ dom (heap s') = {[child; a; t]} ∪ dom (heap example_state)
    ∧ (child ∉ dom (heap example_state)) ∧ (a ∉ dom (heap example_state))
    ∧ (t ∉ dom (heap example_state))
    ∧ child ≠ a ∧ child ≠ t ∧ a ≠ t
    ∧ heap s' !! child = Some (OInd a NegInf)
    ∧ heap s' !! t
      = Some (ndarray (drawn_bits (advance (rng example_state) (length [1; 0; 1]))
                         (length [1; 0; 1])))
    ∧ rng s' = advance (rng example_state) (length [1; 0; 1] + length [1; 0; 1]).
Proof.
  apply (mutate_footprint (1 # 10) None example_state 2%positive 1%positive
           [1; 0; 1] NegInf).
  split; reflexivity.
Defined.

(** *** Runs: genomes, store and generator *)

(** A generational loop whose step keeps a valid individual with the
    property [P], changes no object that existed before the step and
    consumes [c] words: every recorded value is the fitness of an
    individual with [P], nothing that existed before the loop has changed,
    and the loop has consumed [c] words per iteration. *)
Lemma tracked_loop (step : nat → loc * list Fitness → M (loc * list Fitness))
    (P : list Z → Fitness → Prop) (c : nat) :
  (∀ i p fits s g xs f,
      is_ind (heap s) p g xs f → P xs f →
      ∃ p' g' xs' f' s',
        step i (p, fits) s = Ok (p', <[i := f']> fits) s'
        ∧ is_ind (heap s') p' g' xs' f' ∧ P xs' f'
        ∧ heap s ⊆ heap s' ∧ rng s' = advance (rng s) c) →
  ∀ fits0 p s g xs f0,
    is_ind (heap s) p g xs f0 → P xs f0 →
    ∃ p' fits s',
      for_each (seq 0 (length fits0)) step (p, fits0) s = Ok (p', fits) s'
      ∧ length fits = length fits0
      ∧ (∀ j a, fits !! j = Some a → ∃ ys, P ys a)
      ∧ heap s ⊆ heap s'
      ∧ rng s' = advance (rng s) (length fits0 * c).
Proof.
  intros Hstep fits0 p s g xs f0 Hi HP.
  set (I := λ (k : nat) (st : loc * list Fitness) (s' : state),
         length st.2 = length fits0
         ∧ (∃ g xs f, is_ind (heap s') st.1 g xs f ∧ P xs f)
         ∧ (∀ j a, (j < k)%nat → st.2 !! j = Some a → ∃ ys, P ys a)
         ∧ heap s ⊆ heap s'
         ∧ rng s' = advance (rng s) (k * c)).
  destruct (for_each_invariant (seq 0 (length fits0)) step I) with (acc := (p, fits0)) (s := s)
    as ([p' fits] & s' & E & Hlen & _ & Hvals & Hsub & Hrng).
  - intros k x [q fits] s1 Hx (Hlen & (g1 & xs1 & f1 & Hi1 & HP1) & Hvals & Hsub & Hrng).
    simpl in *. apply lookup_seq in Hx as [-> Hk]. simpl.
    destruct (Hstep k q fits s1 g1 xs1 f1 Hi1 HP1)
      as (q' & g2 & xs2 & f2 & s2 & E & Hi2 & HP2 & Hsub2 & Hrng2).
    exists (q', <[k := f2]> fits), s2. split; [done|]. split; simpl.
    { by rewrite length_insert. }
    split; [by exists g2, xs2, f2|].
    split.
    { intros j a Hj Ha. destruct (decide (j = k)) as [->|Hne].
      - rewrite list_lookup_insert_eq in Ha by lia. injection Ha as <-. by exists xs2.
      - rewrite list_lookup_insert_ne in Ha by done. apply (Hvals j a); [lia|done]. }
    split; [by transitivity (heap s1)|].
    rewrite Hrng2, Hrng, advance_advance. f_equal. lia.
  - split; [done|]. split; [by exists g, xs, f0|].
    split; [intros; lia|]. split; [done|]. simpl. by rewrite advance_0.
  - rewrite length_seq in *. simpl in *.
    exists p', fits, s'. split; [done|]. split; [done|]. split; [|done].
    intros j a Ha. apply (Hvals j a); [|done]. apply lookup_lt_Some in Ha. lia.
Qed.

Lemma one_plus_one_step_tracked default_rate objective n i p fits s g xs f :
  is_ind (heap s) p g xs f → scored objective n xs f →
  ∃ p' g' xs' f' s',
    one_plus_one_step default_rate objective i (p, fits) s = Ok (p', <[i := f']> fits) s'
    ∧ is_ind (heap s') p' g' xs' f' ∧ scored objective n xs' f'
    ∧ heap s ⊆ heap s' ∧ rng s' = advance (rng s) (n + n).
Proof.
  destruct s as [h r]. intros Hi [Hgen Hf]. simpl in Hi.
  destruct (one_plus_one_step_spec default_rate objective i p fits h r g xs f Hi)
    as (E & Hc & Hp).
  rewrite E. cbn [heap rng]. pose proof Hgen as [Hlen _]. rewrite Hlen.
  assert (h ⊆ <[loc_mutate h (mutated default_rate r xs)
                   (drawn_bits (advance r n) n) :=
                 OInd (fresh_loc h)
                   (objective {| genes := mutated default_rate r xs; fitness := NegInf |})]>
               (heap_mutate h (mutated default_rate r xs) (drawn_bits (advance r n) n)))
    as Hsub.
  { apply insert_subseteq_r; [apply loc_mutate_None | apply heap_mutate_extends]. }
  rewrite Hlen in Hc, Hp.
  destruct (fit_geb (objective {| genes := mutated default_rate r xs; fitness := NegInf |}) f).
  - eexists _, _, _, _, _. split; [done|]. split; [exact Hc|].
    split; [|by split]. split; [by apply mutated_bit_genome | done].
  - eexists _, _, _, _, _. split; [done|]. split; [exact Hp|].
    split; [by split | by split].
Qed.

Lemma one_plus_lambda_step_tracked default_rate objective lambda n i p fits s g xs f :
  is_ind (heap s) p g xs f → scored objective n xs f →
  ∃ p' g' xs' f' s',
    one_plus_lambda_step default_rate objective lambda i (p, fits) s
      = Ok (p', <[i := f']> fits) s'
    ∧ is_ind (heap s') p' g' xs' f' ∧ scored objective n xs' f'
    ∧ heap s ⊆ heap s'
    ∧ rng s' = advance (rng s) (Z.to_nat (lambda - 1) * (n + n)).
Proof.
  intros Hi [Hgen Hf].
  destruct (one_plus_lambda_step_spec default_rate objective lambda i fits s
              (mkCand p g xs f) Hi)
    as (cands & best & cb & s' & _ & Hinv & Hcb & Hcbv & _ & E).
  destruct Hinv as (_ & H0 & _ & Hoff & _ & Hframe & Hrng). simpl in *.
  pose proof Hgen as [Hlen _]. rewrite Hlen in Hrng, Hoff.
  exists (c_loc cb), (c_arr cb), (c_genes cb), (c_fit cb), s'.
  split; [exact E|]. split; [exact Hcbv|].
  split; [|split; [by apply map_subseteq_spec | done]].
  destruct best as [|j].
  - rewrite H0 in Hcb. injection Hcb as <-. by split.
  - destruct (Hoff j cb Hcb) as (_ & _ & Hg & Hfit).
    split; [|done]. rewrite Hg. by apply mutated_bit_genome.
Qed.

(** The state in which the generational loop starts. *)
Lemma Individual_evaluate_tracked n objective h r :
  0 ≤ n →
  ∃ l g s1,
    (Individual n ≫= λ l, evaluate l objective ≫= λ _, mret l) (mkState h r) = Ok l s1
    ∧ is_ind (heap s1) l g (drawn_bits r (Z.to_nat n))
        (objective {| genes := drawn_bits r (Z.to_nat n); fitness := NegInf |})
    ∧ h ⊆ heap s1
    ∧ rng s1 = advance r (Z.to_nat n).
Proof.
  intros Hn.
  destruct (Individual_evaluate_spec n objective h r Hn) as [E0 Hi0].
  eexists _, _, _. split; [exact E0|]. simpl. split; [exact Hi0|].
  split; [|done].
  apply insert_subseteq_r; [apply loc_Individual_None | apply heap_Individual_extends].
Qed.

Lemma one_plus_one_run_tracked default_rate ind_length num_generations objective h r :
  0 ≤ ind_length → 0 ≤ num_generations →
  let n := Z.to_nat ind_length in
  ∃ fits s',
    one_plus_one default_rate ind_length num_generations objective (mkState h r) = Ok fits s'
    ∧ length fits = Z.to_nat num_generations
    ∧ (∀ j a, fits !! j = Some a → ∃ ys, scored objective n ys a)
    ∧ h ⊆ heap s'
    ∧ rng s' = advance r (n + Z.to_nat num_generations * (n + n)).
Proof.
  intros Hn Hgens n.
  destruct (Individual_evaluate_tracked ind_length objective h r Hn)
    as (l0 & g0 & s1 & E0 & Hi0 & Hsub0 & Hrng0).
  apply bind_inv_Ok in E0 as (l0' & s0 & EI & E0).
  apply bind_inv_Ok in E0 as (o & s1' & EE & E0).
  injection E0 as -> ->.
  destruct (tracked_loop (one_plus_one_step default_rate objective)
              (scored objective n) (n + n)
              (λ i p fits s g xs f,
                 one_plus_one_step_tracked default_rate objective n i p fits s g xs f)
              (replicate (Z.to_nat num_generations) (Fin 0))
              _ _ _ _ _ Hi0)
    as (p' & fits & s' & E & Hlen & Hvals & Hsub & Hrng).
  { split; [apply drawn_bits_bit_genome | done]. }
  rewrite length_replicate in *.
  exists fits, s'. split.
  - unfold one_plus_one.
    erewrite bind_Ok by (by apply np_zeros_spec).
    erewrite bind_Ok by exact EI.
    erewrite bind_Ok by exact EE.
    rewrite length_replicate.
    erewrite bind_Ok by exact E. done.
  - split; [done|]. split; [done|].
    split; [by transitivity (heap s1)|].
    by rewrite Hrng, Hrng0, advance_advance.
Qed.

Lemma one_plus_lambda_run_tracked default_rate ind_length num_generations objective
    lambda h r :
  0 ≤ ind_length → 0 ≤ num_generations →
  let n := Z.to_nat ind_length in
  ∃ fits s',
    one_plus_lambda default_rate ind_length num_generations objective lambda (mkState h r)
      = Ok fits s'
    ∧ length fits = Z.to_nat num_generations
    ∧ (∀ j a, fits !! j = Some a → ∃ ys, scored objective n ys a)
    ∧ h ⊆ heap s'
    ∧ rng s' = advance r (n + Z.to_nat num_generations
                                * (Z.to_nat (lambda - 1) * (n + n))).
Proof.
  intros Hn Hgens n.
  destruct (Individual_evaluate_tracked ind_length objective h r Hn)
    as (l0 & g0 & s1 & E0 & Hi0 & Hsub0 & Hrng0).
  apply bind_inv_Ok in E0 as (l0' & s0 & EI & E0).
  apply bind_inv_Ok in E0 as (o & s1' & EE & E0).
  injection E0 as -> ->.
  destruct (tracked_loop (one_plus_lambda_step default_rate objective lambda)
              (scored objective n) (Z.to_nat (lambda - 1) * (n + n))
              (λ i p fits s g xs f,
                 one_plus_lambda_step_tracked default_rate objective lambda n i p fits s g xs f)
              (replicate (Z.to_nat num_generations) (Fin 0))
              _ _ _ _ _ Hi0)
    as (p' & fits & s' & E & Hlen & Hvals & Hsub & Hrng).
  { split; [apply drawn_bits_bit_genome | done]. }
  rewrite length_replicate in *.
  exists fits, s'. split.
  - unfold one_plus_lambda.
    erewrite bind_Ok by (by apply np_zeros_spec).
    erewrite bind_Ok by exact EI.
    erewrite bind_Ok by exact EE.
    rewrite length_replicate.
    erewrite bind_Ok by exact E. done.
  - split; [done|]. split; [done|].
    split; [by transitivity (heap s1)|].
    by rewrite Hrng, Hrng0, advance_advance.
Qed.

Lemma onemax_float64_exact_on n : Z.of_nat n ≤ 2 ^ 53 → float64_exact_on onemax n.
Proof.
  intros Hn ys [Hlen Hbits]. unfold onemax, float64_exact. simpl.
  destruct (sum_bits_range ys Hbits) as [Hr _]. rewrite Hlen in Hr. lia.
Qed.

Lemma leading_ones_float64_exact_on n :
  Z.of_nat n ≤ 2 ^ 53 → float64_exact_on leading_ones n.
Proof.
  intros Hn ys [Hlen Hbits]. unfold leading_ones, float64_exact. simpl.
  destruct (leading_ones_loop_result ys 0 (length ys) 0) as [E | (i & E & Hi & _)];
    rewrite E; lia.
Qed.

(** X6. Take an objective that, on every unevaluated individual with a
    genome of [ind_length] bits, returns [-inf] or an integer of magnitude
    at most 2^53, which the float64 trace stores unchanged.  Then a run of
    [one_plus_one] with a length and a number of generations that are not
    negative returns one value per generation, and every value is such a
    fitness: what the objective returned on an individual that had not
    been evaluated before ([fitness = -inf]) and whose genome has exactly
    [ind_length] genes, each 0 or 1. *)
Theorem one_plus_one_trace_values
    (default_rate : Q) (ind_length num_generations : Z) (objective : objective_fn)
    (s : state) :
  float64_exact_on objective (Z.to_nat ind_length) →
  0 ≤ ind_length → 0 ≤ num_generations →
  ∃ fits s',
    one_plus_one default_rate ind_length num_generations objective s = Ok fits s'
    ∧ length fits = Z.to_nat num_generations
    ∧ (∀ j a, fits !! j = Some a →
         float64_exact a
         ∧ ∃ ys, bit_genome (Z.to_nat ind_length) ys
                 ∧ a = objective {| genes := ys; fitness := NegInf |}).
Proof.
  intros Hexact Hn Hgens. destruct s as [h r].
  destruct (one_plus_one_run_tracked default_rate ind_length num_generations objective
              h r Hn Hgens) as (fits & s' & E & Hlen & Hvals & _).
  exists fits, s'. split; [done|]. split; [done|].
  intros j a Ha. destruct (Hvals j a Ha) as (ys & Hgen & ->).
  split; [by apply Hexact | by exists ys].
Qed.

Lemma one_plus_one_trace_values_witness :
  ∃ fits s',
    one_plus_one (1 # 10) 3 4 leading_ones example_state = Ok fits s'
    ∧ length fits = Z.to_nat 4
    ∧ (∀ j a, fits !! j = Some a →
         float64_exact a
         ∧ ∃ ys, bit_genome (Z.to_nat 3) ys
                 ∧ a = leading_ones {| genes := ys; fitness := NegInf |}).
Proof.
  apply (one_plus_one_trace_values (1 # 10) 3 4 leading_ones example_state).
  - apply leading_ones_float64_exact_on. simpl. lia.
  - lia.
  - lia.
Defined.

(** X7. A run of [one_plus_one] changes no object that existed before it,
    and it consumes [ind_length] words of the generator for the initial
    individual and [2 * ind_length] for each generation, whatever the
    objective and whichever children are accepted. *)
Theorem one_plus_one_store_and_generator
    (default_rate : Q) (ind_length num_generations : Z) (objective : objective_fn)
    (s : state) :
  0 ≤ ind_length → 0 ≤ num_generations →
  ∃ fits s',
    one_plus_one default_rate ind_length num_generations objective s = Ok fits s'
    ∧ heap s ⊆ heap s'
    ∧ rng s' = advance (rng s)
                 (Z.to_nat ind_length
                  + Z.to_nat num_generations * (Z.to_nat ind_length + Z.to_nat ind_length)).
Proof.
  intros Hn Hgens. destruct s as [h r].
  destruct (one_plus_one_run_tracked default_rate ind_length num_generations objective
              h r Hn Hgens) as (fits & s' & E & _ & _ & Hsub & Hrng).
  by exists fits, s'.
Qed.

Lemma one_plus_one_store_and_generator_witness :
  ∃ fits s',
    one_plus_one (1 # 10) 3 4 onemax example_state = Ok fits s'
    ∧ heap example_state ⊆ heap s'
    ∧ rng s' = advance (rng example_state)
                 (Z.to_nat 3 + Z.to_nat 4 * (Z.to_nat 3 + Z.to_nat 3)).
Proof.
  apply (one_plus_one_store_and_generator (1 # 10) 3 4 onemax example_state); lia.
Defined.

(** X8. Take an objective that, on every unevaluated individual with a
    genome of [ind_length] bits, returns [-inf] or an integer of magnitude
    at most 2^53, which the float64 trace stores unchanged.  Then a run of
    [one_plus_lambda] with a length and a number of generations that are
    not negative returns one value per generation, whatever [lambda] is,
    and every value is such a fitness: what the objective returned on an
    individual that had not been evaluated before and whose genome has
    exactly [ind_length] genes, each 0 or 1. *)
Theorem one_plus_lambda_trace_values
    (default_rate : Q) (ind_length num_generations : Z) (objective : objective_fn)
    (lambda : Z) (s : state) :
  float64_exact_on objective (Z.to_nat ind_length) →
  0 ≤ ind_length → 0 ≤ num_generations →
  ∃ fits s',
    one_plus_lambda default_rate ind_length num_generations objective lambda s = Ok fits s'
    ∧ length fits = Z.to_nat num_generations
    ∧ (∀ j a, fits !! j = Some a →
         float64_exact a
         ∧ ∃ ys, bit_genome (Z.to_nat ind_length) ys
                 ∧ a = objective {| genes := ys; fitness := NegInf |}).
Proof.
  intros Hexact Hn Hgens. destruct s as [h r].
  destruct (one_plus_lambda_run_tracked default_rate ind_length num_generations objective
              lambda h r Hn Hgens) as (fits & s' & E & Hlen & Hvals & _).
  exists fits, s'. split; [done|]. split; [done|].
  intros j a Ha. destruct (Hvals j a Ha) as (ys & Hgen & ->).
  split; [by apply Hexact | by exists ys].
Qed.

Lemma one_plus_lambda_trace_values_witness :
  ∃ fits s',
    one_plus_lambda (1 # 10) 3 4 onemax 3 example_state = Ok fits s'
    ∧ length fits = Z.to_nat 4
    ∧ (∀ j a, fits !! j = Some a →
         float64_exact a
         ∧ ∃ ys, bit_genome (Z.to_nat 3) ys
                 ∧ a = onemax {| genes := ys; fitness := NegInf |}).
Proof.
  apply (one_plus_lambda_trace_values (1 # 10) 3 4 onemax 3 example_state).
  - apply onemax_float64_exact_on. simpl. lia.
  - lia.
  - lia.
Defined.

(** X9. A run of [one_plus_lambda] changes no object that existed before
    it, whatever [lambda] is.  It consumes [ind_length] words of the
    generator for the initial expert and, in each generation,
    [2 * ind_length] words for each of the [max(lambda - 1, 0)] calls of
    [mutate]: for [lambda >= 1] a generation calls [mutate] [lambda - 1]
    times, not [lambda] times. *)
Theorem one_plus_lambda_store_and_generator
    (default_rate : Q) (ind_length num_generations : Z) (objective : objective_fn)
    (lambda : Z) (s : state) :
  0 ≤ ind_length → 0 ≤ num_generations →
  ∃ fits s',
    one_plus_lambda default_rate ind_length num_generations objective lambda s = Ok fits s'
    ∧ heap s ⊆ heap s'
    ∧ rng s' = advance (rng s)
                 (Z.to_nat ind_length
                  + Z.to_nat num_generations
                    * (Z.to_nat (Z.max (lambda - 1) 0)
                       * (Z.to_nat ind_length + Z.to_nat ind_length))).
Proof.
  intros Hn Hgens. destruct s as [h r].
  destruct (one_plus_lambda_run_tracked default_rate ind_length num_generations objective
              lambda h r Hn Hgens) as (fits & s' & E & _ & _ & Hsub & Hrng).
  exists fits, s'. split; [done|]. split; [done|].
  by replace (Z.to_nat (Z.max (lambda - 1) 0)) with (Z.to_nat (lambda - 1)) by lia.
Qed.

Lemma one_plus_lambda_store_and_generator_witness :
  ∃ fits s',
    one_plus_lambda (1 # 10) 3 4 onemax 5 example_state = Ok fits s'
    ∧ heap example_state ⊆ heap s'
    ∧ rng s' = advance (rng example_state)
                 (Z.to_nat 3
                  + Z.to_nat 4 * (Z.to_nat (Z.max (5 - 1) 0) * (Z.to_nat 3 + Z.to_nat 3))).
Proof.
  apply (one_plus_lambda_store_and_generator (1 # 10) 3 4 onemax 5 example_state); lia.
Defined.

(** With [lambda = 0] the run draws the initial expert's genes only. *)
Example one_plus_lambda_0_draws :
  ∃ fits s',
    one_plus_lambda (1 # 10) 3 4 onemax 0 example_state = Ok fits s'
    ∧ rng s' = advance (rng example_state) 3.
Proof. eexists _, _. split; vm_compute; reflexivity. Qed.

(** X10. With [onemax] as the objective, every value of the trace of
    [one_plus_one] and of [one_plus_lambda] is a number between 0 and
    [ind_length]. *)
Theorem onemax_runs_between_0_and_length
    (default_rate : Q) (ind_length num_generations lambda : Z) (s : state) :
  0 ≤ ind_length → 0 ≤ num_generations →
  (∃ fits s',
      one_plus_one default_rate ind_length num_generations onemax s = Ok fits s'
      ∧ ∀ j a, fits !! j = Some a → ∃ k, a = Fin k ∧ 0 ≤ k ≤ ind_length)
  ∧ (∃ fits s',
      one_plus_lambda default_rate ind_length num_generations onemax lambda s = Ok fits s'
      ∧ ∀ j a, fits !! j = Some a → ∃ k, a = Fin k ∧ 0 ≤ k ≤ ind_length).
Proof.
  intros Hn Hgens. destruct s as [h r].
  assert (∀ a, (∃ ys, scored onemax (Z.to_nat ind_length) ys a) →
               ∃ k, a = Fin k ∧ 0 ≤ k ≤ ind_length) as Hbound.
  { intros a (ys & [Hlen Hbits] & ->).
    exists (foldr Z.add 0 ys). split; [done|].
    destruct (sum_bits_range ys Hbits) as [Hr _]. rewrite Hlen in Hr. lia. }
  split.
  - destruct (one_plus_one_run_tracked default_rate ind_length num_generations onemax
                h r Hn Hgens) as (fits & s' & E & _ & Hvals & _).
    exists fits, s'. split; [done|]. intros j a Ha. eapply Hbound, Hvals, Ha.
  - destruct (one_plus_lambda_run_tracked default_rate ind_length num_generations onemax
                lambda h r Hn Hgens) as (fits & s' & E & _ & Hvals & _).
    exists fits, s'. split; [done|]. intros j a Ha. eapply Hbound, Hvals, Ha.
Qed.

Lemma onemax_runs_between_0_and_length_witness :
  (∃ fits s',
      one_plus_one (1 # 10) 20 100 onemax example_state = Ok fits s'
      ∧ ∀ j a, fits !! j = Some a → ∃ k, a = Fin k ∧ 0 ≤ k ≤ 20)
  ∧ (∃ fits s',
      one_plus_lambda (1 # 10) 20 100 onemax 5 example_state = Ok fits s'
      ∧ ∀ j a, fits !! j = Some a → ∃ k, a = Fin k ∧ 0 ≤ k ≤ 20).
Proof.
  apply (onemax_runs_between_0_and_length (1 # 10) 20 100 5 example_state); lia.
Defined.

(** X11. With [leading_ones] as the objective and a positive length, every
    value of the trace of [one_plus_one] and of [one_plus_lambda] is a
    number between 0 and [ind_length - 1]: no run ever records the value
    [ind_length]. *)
Theorem leading_ones_runs_below_length
    (default_rate : Q) (ind_length num_generations lambda : Z) (s : state) :
  0 < ind_length → 0 ≤ num_generations →
  (∃ fits s',
      one_plus_one default_rate ind_length num_generations leading_ones s = Ok fits s'
      ∧ ∀ j a, fits !! j = Some a → ∃ k, a = Fin k ∧ 0 ≤ k < ind_length)
  ∧ (∃ fits s',
      one_plus_lambda default_rate ind_length num_generations leading_ones lambda s
        = Ok fits s'
      ∧ ∀ j a, fits !! j = Some a → ∃ k, a = Fin k ∧ 0 ≤ k < ind_length).
Proof.
  intros Hn Hgens. destruct s as [h r].
  assert (∀ a, (∃ ys, scored leading_ones (Z.to_nat ind_length) ys a) →
               ∃ k, a = Fin k ∧ 0 ≤ k < ind_length) as Hbound.
  { intros a (ys & [Hlen Hbits] & ->).
    unfold leading_ones. simpl genes.
    destruct (leading_ones_loop_result ys 0 (length ys) 0) as [E | (i & E & Hi & _)].
    - exists 0. rewrite E. split; [done|]. lia.
    - exists (Z.of_nat i). rewrite E. split; [done|]. lia. }
  split.
  - destruct (one_plus_one_run_tracked default_rate ind_length num_generations
                leading_ones h r) as (fits & s' & E & _ & Hvals & _); [lia|done|].
    exists fits, s'. split; [done|]. intros j a Ha. eapply Hbound, Hvals, Ha.
  - destruct (one_plus_lambda_run_tracked default_rate ind_length num_generations
                leading_ones lambda h r) as (fits & s' & E & _ & Hvals & _); [lia|done|].
    exists fits, s'. split; [done|]. intros j a Ha. eapply Hbound, Hvals, Ha.
Qed.

Lemma leading_ones_runs_below_length_witness :
  (∃ fits s',
      one_plus_one (1 # 10) 50 50 leading_ones example_state = Ok fits s'
      ∧ ∀ j a, fits !! j = Some a → ∃ k, a = Fin k ∧ 0 ≤ k < 50)
  ∧ (∃ fits s',
      one_plus_lambda (1 # 10) 50 50 leading_ones 5 example_state = Ok fits s'
      ∧ ∀ j a, fits !! j = Some a → ∃ k, a = Fin k ∧ 0 ≤ k < 50).
Proof.
  apply (leading_ones_runs_below_length (1 # 10) 50 50 5 example_state); lia.
Defined.

(** *** Ties *)

Lemma fit_le_antisym a b : fit_le a b → fit_le b a → a = b.
Proof.
  unfold fit_le. destruct a, b; simpl; try done.
  rewrite !Z.leb_le. intros. f_equal. lia.
Qed.

Lemma fit_lt_irrefl a : ¬ fit_lt a a.
Proof. unfold fit_lt. by rewrite (fit_le_refl a). Qed.

(** X12. In a generation of [one_plus_lambda] the expert either stays the
    same object, with the same fitness, or becomes one of the offspring of
    this generation whose fitness is strictly above the expert's: an
    offspring that only equals the expert's fitness never replaces it,
    although the final comparison is [>=]. *)
Theorem one_plus_lambda_replaces_only_on_strict_improvement
    (default_rate : Q) (objective : objective_fn) (lambda : Z) (i : nat)
    (fits : list Fitness) (s : state) (expert g : loc) (xs : list Z) (f : Fitness) :
  is_ind (heap s) expert g xs f →
  ∃ p' f' s',
    one_plus_lambda_step default_rate objective lambda i (expert, fits) s
      = Ok (p', <[i := f']> fits) s'
    ∧ ((p' = expert ∧ f' = f) ∨ (heap s !! p' = None ∧ fit_lt f f')).
Proof.
  intros Hi.
  destruct (one_plus_lambda_step_spec default_rate objective lambda i fits s
              (mkCand expert g xs f) Hi)
    as (cands & best & cb & s' & _ & Hinv & Hcb & _ & _ & E).
  destruct Hinv as (_ & H0 & _ & Hoff & Hargmax & _ & _). simpl in *.
  exists (c_loc cb), (c_fit cb), s'. split; [exact E|].
  destruct best as [|j].
  - left. rewrite H0 in Hcb. by injection Hcb as <-.
  - right. destruct (Hoff j cb Hcb) as (HN & _). split; [exact HN|].
    destruct Hargmax as (fb & Hb & _ & Hfirst).
    rewrite list_lookup_fmap, Hcb in Hb. injection Hb as <-.
    apply (Hfirst 0%nat); [lia|]. by rewrite list_lookup_fmap, H0.
Qed.

Lemma one_plus_lambda_replaces_only_on_strict_improvement_witness :
  ∃ p' f' s',
    one_plus_lambda_step (1 # 10) onemax 4 0 (2%positive, [Fin 0]) example_state
      = Ok (p', <[0%nat := f']> [Fin 0]) s'
    ∧ ((p' = 2%positive ∧ f' = NegInf)
       ∨ (heap example_state !! p' = None ∧ fit_lt NegInf f')).
Proof.
  apply (one_plus_lambda_replaces_only_on_strict_improvement (1 # 10) onemax 4 0
           [Fin 0] example_state 2%positive 1%positive [1; 0; 1] NegInf).
  split; reflexivity.
Defined.

(** One generation of [one_plus_lambda] with [lambda = 2] on a known
    store: one offspring, which becomes the expert exactly when its
    fitness is [>] the expert's. *)
Lemma one_plus_lambda_step_2_spec default_rate objective i expert fits h r g xs f :
  is_ind h expert g xs f →
  let new_genes := mutated default_rate r xs in
  let bits := drawn_bits (advance r (length xs)) (length xs) in
  let child := loc_mutate h new_genes bits in
  let cf := objective {| genes := new_genes; fitness := NegInf |} in
  let h' := <[child := OInd (fresh_loc h) cf]> (heap_mutate h new_genes bits) in
  one_plus_lambda_step default_rate objective 2 i (expert, fits) (mkState h r) =
    Ok (if fit_gtb cf f then child else expert,
        <[i := if fit_gtb cf f then cf else f]> fits)
       (mkState h' (advance r (length xs + length xs))).
Proof.
  intros Hi new_genes bits child cf h'.
  pose proof (heap_mutate_child h new_genes bits) as Hc. fold child in Hc.
  assert (child ≠ expert ∧ child ≠ g) as [Hcp Hcg].
  { destruct Hi as [Hl Hg]. pose proof (loc_mutate_None h new_genes bits) as HN.
    fold child in HN. split; intros ->; congruence. }
  assert (is_ind h' child (fresh_loc h) new_genes cf) as Hc'.
  { destruct Hc as [Hc1 Hc2]. unfold h'. split; [by rewrite lookup_insert_eq|].
    rewrite lookup_insert_ne; [done|]. apply loc_mutate_ne_array. }
  assert (is_ind h' expert g xs f) as Hp'.
  { unfold h'. apply is_ind_insert_other; [by apply is_ind_heap_mutate|done..]. }
  assert (for_each (seq 1 (Z.to_nat (2 - 1)))
            (offspring_step default_rate expert objective) ([expert], 0%nat) (mkState h r)
          = Ok ([expert; child], if fit_gtb cf f then 1%nat else 0%nat)
               (mkState h' (advance r (length xs + length xs)))) as Eloop.
  { change (seq 1 (Z.to_nat (2 - 1))) with [1%nat]. simpl for_each.
    erewrite bind_Ok; [reflexivity|].
    unfold offspring_step.
    erewrite bind_Ok by (by eapply (mutate_spec default_rate None)).
    change (default default_rate None) with default_rate.
    fold new_genes bits child. cbv zeta.
    change (([expert] ++ [child]) !! 1%nat) with (Some child).
    change (([expert] ++ [child]) !! 0%nat) with (Some expert).
    cbv beta iota.
    erewrite bind_Ok by (by eapply evaluate_spec).
    fold cf h'.
    erewrite bind_Ok by (eapply get_fitness_spec; apply Hc').
    erewrite bind_Ok by (eapply get_fitness_spec; apply Hp').
    reflexivity. }
  unfold one_plus_lambda_step.
  erewrite bind_Ok by exact Eloop.
  cbv beta iota zeta.
  destruct (fit_gtb cf f) eqn:Hgt.
  - change ([expert; child] !! 1%nat) with (Some child). cbv beta iota.
    erewrite bind_Ok by (eapply get_fitness_spec; apply Hc').
    erewrite bind_Ok by (eapply get_fitness_spec; apply Hp').
    assert (fit_geb cf f = true) as ->.
    { apply fit_lt_le. by apply fit_gtb_true_lt. }
    erewrite bind_Ok by (eapply get_fitness_spec; apply Hc').
    reflexivity.
  - change ([expert; child] !! 0%nat) with (Some expert). cbv beta iota.
    erewrite bind_Ok by (eapply get_fitness_spec; apply Hp').
    erewrite bind_Ok by (eapply get_fitness_spec; apply Hp').
    assert (fit_geb f f = true) as -> by apply fit_le_refl.
    erewrite bind_Ok by (eapply get_fitness_spec; apply Hp').
    reflexivity.
Qed.

(** X13. From the same state, one generation of [one_plus_one] and one
    generation of [one_plus_lambda] with [lambda = 2] create and evaluate
    the same child, end in the same state and record the same fitness.
    They keep the same individual unless the child's fitness equals the
    parent's: then [one_plus_one] moves on to the child and
    [one_plus_lambda] keeps the expert. *)
Theorem one_plus_one_and_lambda_2_differ_on_ties_only
    (default_rate : Q) (objective : objective_fn) (i : nat) (fits : list Fitness)
    (s : state) (parent g : loc) (xs : list Z) (f : Fitness) :
  is_ind (heap s) parent g xs f →
  let cf := objective {| genes := mutated default_rate (rng s) xs; fitness := NegInf |} in
  ∃ p1 p2 f' s',
    one_plus_one_step default_rate objective i (parent, fits) s
      = Ok (p1, <[i := f']> fits) s'
    ∧ one_plus_lambda_step default_rate objective 2 i (parent, fits) s
      = Ok (p2, <[i := f']> fits) s'
    ∧ (cf ≠ f → p1 = p2)
    ∧ (cf = f → p1 ≠ parent ∧ p2 = parent
                ∧ ∃ a, is_ind (heap s') p1 a (mutated default_rate (rng s) xs) f).
Proof.
  destruct s as [h r]. intros Hi cf. simpl in Hi, cf.
  destruct (one_plus_one_step_spec default_rate objective i parent fits h r g xs f Hi)
    as (E1 & Hc & _).
  pose proof (one_plus_lambda_step_2_spec default_rate objective i parent fits h r g xs f Hi)
    as E2.
  cbv zeta in E2. fold cf in E1, E2, Hc.
  assert (loc_mutate h (mutated default_rate r xs)
            (drawn_bits (advance r (length xs)) (length xs)) ≠ parent) as Hne.
  { intros E. destruct Hi as [Hl _].
    pose proof (loc_mutate_None h (mutated default_rate r xs)
                  (drawn_bits (advance r (length xs)) (length xs))) as HN.
    rewrite E in HN. congruence. }
  rewrite E1, E2. cbn [heap rng].
  destruct (fit_geb cf f) eqn:Hge; destruct (fit_gtb cf f) eqn:Hgt.
  - eexists _, _, _, _. split; [reflexivity|]. split; [reflexivity|].
    split; [done|]. intros Heq. apply fit_gtb_true_lt in Hgt.
    rewrite Heq in Hgt. by apply fit_lt_irrefl in Hgt.
  - assert (cf = f) as Heq.
    { apply fit_le_antisym; [by apply fit_gtb_false_le | exact Hge]. }
    rewrite Heq. eexists _, _, _, _. split; [reflexivity|]. split; [reflexivity|].
    split; [done|]. intros _. split; [exact Hne|]. split; [done|].
    eexists. rewrite <- Heq. exact Hc.
  - apply fit_gtb_true_lt in Hgt. unfold fit_lt in Hgt. unfold fit_geb in Hge.
    apply fit_lt_le in Hge. unfold fit_le in Hge. congruence.
  - eexists _, _, _, _. split; [reflexivity|]. split; [reflexivity|].
    split; [done|]. intros Heq. rewrite Heq in Hge.
    pose proof (fit_le_refl f) as Hr. unfold fit_geb in Hge. unfold fit_le in Hr. congruence.
Qed.

Lemma one_plus_one_and_lambda_2_differ_on_ties_only_witness :
  let cf := onemax {| genes := mutated (1 # 10) (rng example_state) [1; 0; 1];
                      fitness := NegInf |} in
  ∃ p1 p2 f' s',
    one_plus_one_step (1 # 10) onemax 0 (2%positive, [Fin 0]) example_state
      = Ok (p1, <[0%nat := f']> [Fin 0]) s'
    ∧ one_plus_lambda_step (1 # 10) onemax 2 0 (2%positive, [Fin 0]) example_state
      = Ok (p2, <[0%nat := f']> [Fin 0]) s'
    ∧ (cf ≠ NegInf → p1 = p2)
    ∧ (cf = NegInf → p1 ≠ 2%positive ∧ p2 = 2%positive
                     ∧ ∃ a, is_ind (heap s') p1 a
                              (mutated (1 # 10) (rng example_state) [1; 0; 1]) NegInf).
Proof.
  apply (one_plus_one_and_lambda_2_differ_on_ties_only (1 # 10) onemax 0 [Fin 0]
           example_state 2%positive 1%positive [1; 0; 1] NegInf).
  split; reflexivity.
Defined.

(** A tie: under the rate 1/10 no gene of the parent [[1; 0; 1]] is
    flipped in [tie_state]; [one_plus_one] continues with the child (the
    new object 5), [one_plus_lambda] with [lambda = 2] keeps the expert
    (the object 2). *)
Example tie_example :
  ∃ s',
    one_plus_one_step (1 # 10) onemax 0 (2%positive, [Fin 0]) tie_state
      = Ok (5%positive, [Fin 2]) s'
    ∧ one_plus_lambda_step (1 # 10) onemax 2 0 (2%positive, [Fin 0]) tie_state
      = Ok (2%positive, [Fin 2]) s'.
Proof. eexists. split; vm_compute; reflexivity. Qed.

(** *** Failures *)

Lemma np_zeros_negative n s : n < 0 → np_zeros n s = Raise ValueError.
Proof. intros Hn. unfold np_zeros. by destruct (decide (n < 0)). Qed.

(** X14. The outcome of a run, whatever [lambda] and the state.  If the
    number of generations or the length is negative, the run raises numpy's
    [ValueError] (from [np.zeros], or from [np.random.randint] in
    [Individual]) before the loop, whatever the objective.  Otherwise, with
    an objective that returns a fitness the float64 trace stores unchanged
    on every unevaluated individual with a genome of [ind_length] bits, the
    run returns: [population[j]] and [population[best]] are never out of
    range, and no attribute is read from an object that is not there. *)
Theorem runs_raise_exactly_on_negative_arguments
    (default_rate : Q) (ind_length num_generations : Z) (objective : objective_fn)
    (lambda : Z) (s : state) :
  (ind_length < 0 ∨ num_generations < 0 →
     one_plus_one default_rate ind_length num_generations objective s = Raise ValueError
     ∧ one_plus_lambda default_rate ind_length num_generations objective lambda s
       = Raise ValueError)
  ∧ (0 ≤ ind_length → 0 ≤ num_generations →
     float64_exact_on objective (Z.to_nat ind_length) →
     (∃ fits s',
         one_plus_one default_rate ind_length num_generations objective s = Ok fits s'
         ∧ Forall float64_exact fits)
     ∧ (∃ fits s',
         one_plus_lambda default_rate ind_length num_generations objective lambda s
         = Ok fits s'
         ∧ Forall float64_exact fits)).
Proof.
  destruct s as [h r]. split.
  - intros Hneg. unfold one_plus_one, one_plus_lambda.
    destruct (decide (num_generations < 0)) as [Hg|Hg].
    + split; (erewrite bind_Raise; [done|by apply np_zeros_negative]).
    + assert (ind_length < 0) as Hn by lia.
      split; (erewrite bind_Ok by (apply np_zeros_spec; lia);
              erewrite bind_Raise; [done|by apply Individual_negative]).
  - intros Hn Hg Hexact. split.
    + destruct (one_plus_one_run_tracked default_rate ind_length num_generations objective
                  h r Hn Hg) as (fits & s' & E & _ & Hvals & _).
      exists fits, s'. split; [done|]. apply Forall_lookup. intros j a Ha.
      destruct (Hvals j a Ha) as (ys & Hgen & ->). by apply Hexact.
    + destruct (one_plus_lambda_run_tracked default_rate ind_length num_generations
                  objective lambda h r Hn Hg) as (fits & s' & E & _ & Hvals & _).
      exists fits, s'. split; [done|]. apply Forall_lookup. intros j a Ha.
      destruct (Hvals j a Ha) as (ys & Hgen & ->). by apply Hexact.
Qed.

(** The same for [leading_ones], length 3, four generations and
    [lambda = 3]; and for a negative number of generations. *)
Lemma runs_raise_exactly_on_negative_arguments_witness :
  (one_plus_one (1 # 10) 3 (-1) leading_ones zero_state = Raise ValueError
   ∧ one_plus_lambda (1 # 10) 3 (-1) leading_ones 3 zero_state = Raise ValueError)
  ∧ (∃ fits s',
        one_plus_one (1 # 10) 3 4 leading_ones zero_state = Ok fits s'
        ∧ Forall float64_exact fits)
  ∧ (∃ fits s',
        one_plus_lambda (1 # 10) 3 4 leading_ones 3 zero_state = Ok fits s'
        ∧ Forall float64_exact fits).
Proof.
  destruct (runs_raise_exactly_on_negative_arguments (1 # 10) 3 (-1) leading_ones 3
              zero_state) as [Hraise _].
  destruct (runs_raise_exactly_on_negative_arguments (1 # 10) 3 4 leading_ones 3
              zero_state) as [_ Hret].
  split; [apply Hraise; right; lia|].
  apply Hret; [lia | lia |].
  apply leading_ones_float64_exact_on. simpl. lia.
Defined.

(** *** Cell 28: the loop on a parent that was never evaluated *)

(** One iteration of the loop of cell 28 on a known store. *)
Lemma cell_28_step_spec default_rate i parent h r g xs f :
  is_ind h parent g xs f →
  let new_genes := mutated default_rate r xs in
  let bits := drawn_bits (advance r (length xs)) (length xs) in
  let child := loc_mutate h new_genes bits in
  let cf := onemax {| genes := new_genes; fitness := NegInf |} in
  let h' := <[child := OInd (fresh_loc h) cf]> (heap_mutate h new_genes bits) in
  cell_28_step default_rate i parent (mkState h r) =
    Ok (if fit_geb cf f then child else parent)
       (mkState h' (advance r (length xs + length xs)))
  ∧ is_ind h' child (fresh_loc h) new_genes cf
  ∧ is_ind h' parent g xs f
  ∧ h !! child = None.
Proof.
  intros Hi new_genes bits child cf h'.
  pose proof (heap_mutate_child h new_genes bits) as Hc. fold child in Hc.
  pose proof (loc_mutate_None h new_genes bits) as HN. fold child in HN.
  assert (child ≠ parent ∧ child ≠ g) as [Hcp Hcg].
  { destruct Hi as [Hl Hg]. split; intros ->; congruence. }
  assert (is_ind h' child (fresh_loc h) new_genes cf) as Hc'.
  { destruct Hc as [Hc1 Hc2]. unfold h'. split; [by rewrite lookup_insert_eq|].
    rewrite lookup_insert_ne; [done|]. apply loc_mutate_ne_array. }
  assert (is_ind h' parent g xs f) as Hp'.
  { unfold h'. apply is_ind_insert_other; [by apply is_ind_heap_mutate|done..]. }
  split; [|done].
  unfold cell_28_step.
  erewrite bind_Ok by (by eapply (mutate_spec default_rate None)).
  change (default default_rate None) with default_rate.
  fold new_genes bits child.
  erewrite bind_Ok by (by eapply evaluate_spec).
  fold cf h'.
  erewrite bind_Ok by (eapply get_fitness_spec; apply Hc').
  erewrite bind_Ok by (eapply get_fitness_spec; apply Hp').
  reflexivity.
Qed.

(** X15. Cell 28 compares children with a parent that it never evaluated.
    A parent whose fitness is still [-inf] is always replaced by the child,
    so the first iteration discards the initial individual, and the
    fitness the cell prints is the [onemax] value of a genome of 20 bits:
    a number between 0 and 20, never [-inf]. *)
Theorem cell_28_prints_a_number (default_rate : Q) (s : state) :
  (∀ i parent g xs,
      is_ind (heap s) parent g xs NegInf →
      ∃ child s',
        cell_28_step default_rate i parent s = Ok child s'
        ∧ heap s !! child = None)
  ∧ ∃ k s', cell_28 default_rate s = Ok (Fin k) s' ∧ 0 ≤ k ≤ 20.
Proof.
  destruct s as [h r]. split.
  - intros i parent g xs Hi. simpl in Hi.
    destruct (cell_28_step_spec default_rate i parent h r g xs NegInf Hi)
      as (E & _ & _ & HN).
    rewrite E. eexists _, _. split; [reflexivity|].
    replace (fit_geb _ NegInf) with true by (by destruct (onemax _)). exact HN.
  - set (I := λ (k : nat) (p : loc) (s' : state),
           ∃ g xs f, is_ind (heap s') p g xs f ∧ bit_genome 20 xs
                     ∧ ((k = 0%nat ∧ f = NegInf)
                        ∨ f = onemax {| genes := xs; fitness := NegInf |})).
    pose proof (Individual_spec 20 h r) as EI.
    destruct (for_each_invariant (seq 0 20) (cell_28_step default_rate) I)
      with (acc := loc_Individual h (drawn_bits r (Z.to_nat 20)))
           (s := mkState (heap_Individual h (drawn_bits r (Z.to_nat 20)))
                         (advance r (Z.to_nat 20)))
      as (p' & s' & E & g' & xs' & f' & Hi' & Hgen & Hf').
    + intros k x p [h1 r1] _ (g1 & xs1 & f1 & Hi1 & Hgen1 & Hf1). simpl in Hi1.
      destruct (cell_28_step_spec default_rate x p h1 r1 g1 xs1 f1 Hi1)
        as (E & Hc & Hp & _).
      rewrite E.
      destruct (fit_geb (onemax {| genes := mutated default_rate r1 xs1;
                                   fitness := NegInf |}) f1) eqn:Hge.
      * eexists _, _. split; [reflexivity|].
        eexists _, _, _. split; [exact Hc|].
        split; [by apply mutated_bit_genome | by right].
      * eexists _, _. split; [reflexivity|].
        eexists _, _, _. split; [exact Hp|]. split; [done|]. right.
        destruct Hf1 as [[_ ->] | Hf1]; [|done].
        by destruct (onemax {| genes := mutated default_rate r1 xs1; fitness := NegInf |}).
    + eexists _, _, _. split; [apply heap_Individual_is_ind|].
      split; [apply drawn_bits_bit_genome | left; split; reflexivity].
    + destruct Hf' as [[Hk _] | Hf']; [simpl in Hk; lia|].
      destruct Hgen as [Hlen Hbits].
      destruct (sum_bits_range xs' Hbits) as [Hr _].
      exists (foldr Z.add 0 xs'), s'. split; [|rewrite Hlen in Hr; lia].
      unfold cell_28.
      erewrite bind_Ok by (apply EI; lia).
      erewrite bind_Ok by exact E.
      destruct s' as [h' r']. rewrite Hf' in Hi'.
      eapply get_fitness_spec. apply Hi'.
Qed.
